(** * The font-size SEO audit (lighthouse-core/audits/seo/font-size.js)

    A shallow embedding of the audit and the properties its specification
    states about it.

    Conventions of the embedding.
    - JavaScript numbers that hold counts, ids and positions ([textLength],
      [nodeId], [startLine], ...) are integers, modelled as [Z]; a font
      size is any double, modelled as its rational value.  The percentages
      of the [coverage] column are computed and printed as doubles are
      ([JS.divide], [JS.multiply], [JS.toFixed2]); the comparisons of the
      passing percentage with 0 and with the threshold are made on the
      exact quotient.
    - JavaScript strings are [string]s holding UTF-8; [trim] and the
      regular expression [\s] take the white space of ECMAScript,
      [toLowerCase] maps the letters of ASCII.
    - An exception is a value of [result]: [Throw TypeError] is the
      [TypeError] raised by a property access on [undefined].
    - The [Map] of [getUniqueFailingRules] is iterated in insertion order,
      so it is an association list; the [Map] of [getAttributeMap] is only
      looked up, so it is a [gmap].
    - The first part models objects by value.  Module [Store] models the
      same functions over an explicit store of mutable objects and proves
      that it computes the same results. *)

From Stdlib Require Import ZArith QArith Qround String Ascii List.
From Stdlib Require Import Qabs Qpower Permutation Sorted Lia Lqa.
From Stdlib Require Import Decimal DecimalString DecimalZ DecimalPos.
From stdpp Require Import base option list strings gmap.

Open Scope Z_scope.

(** ** Exceptions *)

Inductive error : Type :=
| TypeError
| Rejected.

Inductive result (A : Type) : Type :=
| Ok (a : A)
| Throw (e : error).

Arguments Ok {A} a.
Arguments Throw {A} e.

Definition bind {A B : Type} (r : result A) (k : A -> result B) : result B :=
  match r with
  | Ok a => k a
  | Throw e => Throw e
  end.

Notation "'let*' x ':=' r 'in' k" := (bind r (fun x => k))
  (at level 10, x name, r at level 100, k at level 200).

Fixpoint mapM {A B : Type} (f : A -> result B) (l : list A) : result (list B) :=
  match l with
  | [] => Ok []
  | x :: l' => let* y := f x in let* ys := mapM f l' in Ok (y :: ys)
  end.

(** ** JavaScript primitives used by the audit *)

Module JS.

(** [`${n}`] for an integer [n]. *)
Definition numToString (n : Z) : string :=
  NilZero.string_of_int (Z.to_int n).

Definition isUpper (c : ascii) : bool :=
  let n := nat_of_ascii c in (65 <=? n)%nat && (n <=? 90)%nat.

Definition lowerChar (c : ascii) : ascii :=
  if isUpper c then ascii_of_nat (nat_of_ascii c + 32) else c.

(** [String.prototype.toLowerCase] *)
Fixpoint toLowerCase (s : string) : string :=
  match s with
  | EmptyString => EmptyString
  | String c s' => String (lowerChar c) (toLowerCase s')
  end.

(** The characters of the class [\s], which are those [trim] strips
    (WhiteSpace and LineTerminator of ECMAScript), each as its bytes in
    UTF-8: TAB, LF, VT, FF, CR, SPACE, U+00A0, U+1680, U+2000 to U+200A,
    U+2028, U+2029, U+202F, U+205F, U+3000 and U+FEFF. *)
Definition whiteSpaces : list (list ascii) :=
  map (map ascii_of_nat)
    [ [9]; [10]; [11]; [12]; [13]; [32]; [194; 160]; [225; 154; 128];
      [226; 128; 128]; [226; 128; 129]; [226; 128; 130]; [226; 128; 131];
      [226; 128; 132]; [226; 128; 133]; [226; 128; 134]; [226; 128; 135];
      [226; 128; 136]; [226; 128; 137]; [226; 128; 138];
      [226; 128; 168]; [226; 128; 169]; [226; 128; 175]; [226; 129; 159];
      [227; 128; 128]; [239; 187; 191] ]%nat.

Definition isEmpty (s : string) : bool :=
  match s with EmptyString => true | String _ _ => false end.

(** Truthiness of a string: every string but the empty one. *)
Definition truthy (s : string) : bool := negb (isEmpty s).

(** [l] without its prefix [w], when it starts with [w]. *)
Fixpoint stripPrefix (w l : list ascii) : option (list ascii) :=
  match w with
  | [] => Some l
  | a :: w' =>
      match l with
      | [] => None
      | b :: l' => if Ascii.eqb a b then stripPrefix w' l' else None
      end
  end.

(** [l] without the first of the [table] it starts with. *)
Fixpoint stripFirst (table : list (list ascii)) (l : list ascii)
  : option (list ascii) :=
  match table with
  | [] => None
  | w :: table' =>
      match stripPrefix w l with
      | Some rest => Some rest
      | None => stripFirst table' l
      end
  end.

(** [l] without the longest prefix made of members of the [table]; one
    unit of [fuel] for each member taken off. *)
Fixpoint stripAll (fuel : nat) (table : list (list ascii)) (l : list ascii)
  : list ascii :=
  match fuel with
  | O => l
  | S fuel' =>
      match stripFirst table l with
      | Some rest => stripAll fuel' table rest
      | None => l
      end
  end.

Definition trimStartBytes (l : list ascii) : list ascii :=
  stripAll (length l) whiteSpaces l.

Definition trimEndBytes (l : list ascii) : list ascii :=
  List.rev (stripAll (length l) (map (@List.rev ascii) whiteSpaces) (List.rev l)).

Definition trimStart (s : string) : string :=
  string_of_list_ascii (trimStartBytes (list_ascii_of_string s)).

Definition trimEnd (s : string) : string :=
  string_of_list_ascii (trimEndBytes (list_ascii_of_string s)).

(** [String.prototype.trim] *)
Definition trim (s : string) : string :=
  string_of_list_ascii
    (trimEndBytes (trimStartBytes (list_ascii_of_string s))).

(** The pieces between the maximal runs of white space: a run closes the
    piece before it and the rest is split after the run. *)
Fixpoint splitBytes (fuel : nat) (l : list ascii) : list (list ascii) :=
  match fuel with
  | O => [[]]
  | S fuel' =>
      match l with
      | [] => [[]]
      | c :: l' =>
          match stripFirst whiteSpaces l with
          | Some rest =>
              [] :: splitBytes fuel' (stripAll (length rest) whiteSpaces rest)
          | None =>
              match splitBytes fuel' l' with
              | [] => [[c]]
              | t :: ts => (c :: t) :: ts
              end
          end
      end
  end.

(** [s.split(/\s+/)] (a run of white space at either end leaves an empty
    piece there). *)
Definition splitWhiteSpace (s : string) : list string :=
  map string_of_list_ascii
    (splitBytes (String.length s) (list_ascii_of_string s)).

(** [Array.prototype.join] on strings. *)
Definition join (sep : string) (l : list string) : string :=
  String.concat sep l.

(** The double quote character. *)
Definition dquote : string := String (ascii_of_nat 34) EmptyString.

(** [Array.prototype.sort(cmp)]: a stable sort; [cmp a b <= 0] keeps [a]
    before [b]. *)
Section Sort.
Context {A : Type} (cmp : A -> A -> Z).

Fixpoint sortInsert (x : A) (l : list A) : list A :=
  match l with
  | [] => [x]
  | y :: l' => if cmp x y <=? 0 then x :: y :: l' else y :: sortInsert x l'
  end.

Fixpoint sort (l : list A) : list A :=
  match l with
  | [] => []
  | x :: l' => sortInsert x (sort l')
  end.
End Sort.

(** *** Numbers

    A number is the rational value of a double.  [roundDouble] is the
    rounding of IEEE 754 binary64 arithmetic (to nearest, ties to even,
    with the subnormal numbers; no overflow to infinity), and an
    operation on doubles is the exact operation followed by it. *)

(** [2^k * a / b] as a fraction of integers. *)
Definition scale2 (a b k : Z) : Z * Z :=
  if 0 <=? k then (a * 2 ^ k, b) else (a, b * 2 ^ (- k)).

(** The integer part of the binary logarithm of [a / b], [a] and [b]
    positive. *)
Definition log2Quot (a b : Z) : Z :=
  let e0 := Z.log2 a - Z.log2 b in
  let '(n, d) := scale2 a b (- e0) in
  if d <=? n then e0 else e0 - 1.

(** The integer nearest to [n / d], the even one of two. *)
Definition nearestEven (n d : Z) : Z :=
  let q := n / d in
  let r := n mod d in
  match 2 * r ?= d with
  | Lt => q
  | Gt => q + 1
  | Eq => if Z.even q then q else q + 1
  end.

Definition pow2Q (k : Z) : Q :=
  if 0 <=? k then inject_Z (2 ^ k) else 1 # Z.to_pos (2 ^ (- k)).

(** The double nearest to [a / b], [a] and [b] positive: 53 bits from the
    leading one, or the multiples of 2^-1074 below 2^-1022. *)
Definition roundDoublePos (a b : Z) : Q :=
  let e := Z.max (log2Quot a b) (-1022) in
  let '(n, d) := scale2 a b (52 - e) in
  Qred (inject_Z (nearestEven n d) * pow2Q (e - 52)).

Definition roundDouble (x : Q) : Q :=
  match Qnum x with
  | 0 => 0%Q
  | Z.pos a => roundDoublePos (Z.pos a) (Z.pos (Qden x))
  | Z.neg a => (- roundDoublePos (Z.pos a) (Z.pos (Qden x)))%Q
  end.

(** [x / y] and [x * y] on doubles ([y] not zero). *)
Definition divide (x y : Q) : Q := roundDouble (x / y).
Definition multiply (x y : Q) : Q := roundDouble (x * y).

Definition pow10Q (k : Z) : Q :=
  if 0 <=? k then inject_Z (10 ^ k) else 1 # Z.to_pos (10 ^ (- k)).

Definition digits10 (p : Z) : Z := Z.of_nat (String.length (numToString p)).

(** The [n] with 10^(n-1) <= x < 10^n, for a positive [x]. *)
Definition decimalExponent (x : Q) : Z :=
  let n0 := digits10 (Qnum x) - digits10 (Z.pos (Qden x)) in
  if Qle_bool (pow10Q n0) x then n0 + 1 else n0.

(** The integer [s] and the least number of digits [k], from the given
    one on, for which s * 10^(n-k) is read back as the double [x]; of two
    such [s] the one nearest to [x], the even one when both are as
    near. *)
Fixpoint shortestDigits (fuel : nat) (k : Z) (x : Q) (n : Z) : Z * Z :=
  match fuel with
  | O => (Qfloor (x / pow10Q (n - k)), k)
  | S fuel' =>
      let r := pow10Q (n - k) in
      let s := Qfloor (x / r) in
      let lo := (inject_Z s * r)%Q in
      let hi := (inject_Z (s + 1) * r)%Q in
      let okLo := Qeq_bool (roundDouble lo) x in
      let okHi := Qeq_bool (roundDouble hi) x in
      if okLo && okHi then
        match (x - lo ?= hi - x)%Q with
        | Lt => (s, k)
        | Gt => (s + 1, k)
        | Eq => if Z.even s then (s, k) else (s + 1, k)
        end
      else if okLo then (s, k)
      else if okHi then (s + 1, k)
      else shortestDigits fuel' (k + 1) x n
  end.

Fixpoint stripZeros (reversedDigits : list ascii) : list ascii :=
  match reversedDigits with
  | c :: l => if Ascii.eqb c "0" then stripZeros l else reversedDigits
  | [] => []
  end.

Definition zeros (n : Z) : string :=
  string_of_list_ascii (repeat "0"%char (Z.to_nat n)).

(** Number::toString for a positive double: the digits, then the layout
    by the decimal exponent [n]. *)
Definition positiveToString (x : Q) : string :=
  let n := decimalExponent x in
  let '(s, k) := shortestDigits 17 1 x n in
  let all := numToString s in
  let n := n + (Z.of_nat (String.length all) - k) in
  let d := string_of_list_ascii
             (List.rev (stripZeros (List.rev (list_ascii_of_string all)))) in
  let k := Z.of_nat (String.length d) in
  if (k <=? n) && (n <=? 21) then d +:+ zeros (n - k)
  else if (0 <? n) && (n <=? 21) then
    substring 0 (Z.to_nat n) d +:+ "." +:+
    substring (Z.to_nat n) (Z.to_nat (k - n)) d
  else if (-6 <? n) && (n <=? 0) then "0." +:+ zeros (- n) +:+ d
  else
    let e := n - 1 in
    (if k =? 1 then d
     else substring 0 1 d +:+ "." +:+ substring 1 (Z.to_nat (k - 1)) d)
    +:+ "e" +:+ (if 0 <=? e then "+" else "-") +:+ numToString (Z.abs e).

(** [`${x}`] for a number [x]: Number::toString of the double nearest
    to [x]. *)
Definition numberToString (x : Q) : string :=
  let x := roundDouble x in
  match Qnum x with
  | 0 => "0"
  | Z.pos _ => positiveToString x
  | Z.neg _ => "-" +:+ positiveToString (- x)
  end.

(** [x.toFixed(2)] for a non-negative [x]: the integer [n] closest to
    [100 x] (the larger of two), printed with a point before its last two
    digits. *)
Definition toFixed2Abs (x : Q) : string :=
  let n := Qfloor (x * 100 + (1 # 2)) in
  let frac := n mod 100 in
  numToString (n / 100) +:+ "." +:+
    (if frac <? 10 then "0" else "") +:+ numToString frac.

(** [x.toFixed(2)] *)
Definition toFixed2 (x : Q) : string :=
  if Qle_bool 0 x then toFixed2Abs x else "-" +:+ toFixed2Abs (- x).

(** A [Map] iterated in insertion order. *)
Section OrderedMap.
Context {V : Type}.

Definition Map : Type := list (string * V).

Fixpoint get (k : string) (m : Map) : option V :=
  match m with
  | [] => None
  | (k', v) :: m' => if String.eqb k k' then Some v else get k m'
  end.

(** [set] on a present key replaces its value and keeps its place. *)
Fixpoint set (k : string) (v : V) (m : Map) : Map :=
  match m with
  | [] => [(k, v)]
  | (k', v') :: m' =>
      if String.eqb k k' then (k', v) :: m' else (k', v') :: set k v m'
  end.

Definition values (m : Map) : list V := map snd m.
Definition keys (m : Map) : list string := map fst m.
End OrderedMap.

Arguments Map V : clear implicits.

End JS.

(** ** Data model *)

Module Range.
Record t : Type := make { startLine : Z; startColumn : Z }.
End Range.

Module Stylesheet.
(** The fields of the style sheet header the audit reads. *)
Record t : Type := make {
  sourceURL : string;
  hasSourceURL : bool;
  isInline : bool;
  startLine : Z;
  startColumn : Z
}.
End Stylesheet.

Record SelectorItem : Type := { text : string }.

Record ParentRule : Type := {
  origin : string;
  selectors : list SelectorItem
}.

Inductive RuleType : Type := Regular | Attributes | Inline.

Record CssRule : Type := {
  type : RuleType;
  styleSheetId : string;
  range : option Range.t;
  parentRule : option ParentRule;
  stylesheet : option Stylesheet.t
}.

#[warnings="-register-all"]
Inductive Node : Type := mkNode {
  nodeId : Z;
  localName : string;
  attributes : option (list string);
  parentNode : option Node
}.

Record FailingNodeData : Type := {
  node : Node;
  cssRule : option CssRule;
  fontSize : Q;
  textLength : Z
}.

Definition RuleType_eqb (a b : RuleType) : bool :=
  match a, b with
  | Regular, Regular | Attributes, Attributes | Inline, Inline => true
  | _, _ => false
  end.

(** ** getFontArtifactId *)

Definition getFontArtifactId (styleDeclaration : option CssRule) (node : Node)
  : string :=
  match styleDeclaration with
  | Some d =>
      if RuleType_eqb (type d) Regular then
        let startLine :=
          match range d with Some r => Range.startLine r | None => 0 end in
        let startColumn :=
          match range d with Some r => Range.startColumn r | None => 0 end in
        styleSheetId d +:+ "@" +:+ JS.numToString startLine +:+ ":" +:+
          JS.numToString startColumn
      else "node_" +:+ JS.numToString (nodeId node)
  | None => "node_" +:+ JS.numToString (nodeId node)
  end.

(** ** getUniqueFailingRules *)

(** [failingRule.textLength += textLength] *)
Definition addTextLength (failingRule : FailingNodeData) (n : Z)
  : FailingNodeData :=
  {| node := node failingRule;
     cssRule := cssRule failingRule;
     fontSize := fontSize failingRule;
     textLength := textLength failingRule + n |}.

(** The body of the [forEach] callback. *)
Definition collectFailingRule (failingRules : JS.Map FailingNodeData)
  (f : FailingNodeData) : JS.Map FailingNodeData :=
  let artifactId := getFontArtifactId (cssRule f) (node f) in
  match JS.get artifactId failingRules with
  | None =>
      JS.set artifactId
        {| node := node f; cssRule := cssRule f;
           fontSize := fontSize f; textLength := textLength f |}
        failingRules
  | Some failingRule =>
      JS.set artifactId (addTextLength failingRule (textLength f)) failingRules
  end.

Definition getUniqueFailingRules (fontSizeArtifact : list FailingNodeData)
  : list FailingNodeData :=
  JS.values (fold_left collectFailingRule fontSizeArtifact []).

(** ** getAttributeMap, getSelector, nodeToTableNode *)

(** The loop of [getAttributeMap], two entries at a time.  When a name is
    the last entry, [attributes[i + 1]] is [undefined] and [.trim()]
    throws. *)
Fixpoint getAttributeMapLoop (attributes : list string)
  (map : gmap string string) : result (gmap string string) :=
  match attributes with
  | [] => Ok map
  | [_] => Throw TypeError
  | name :: value :: rest =>
      let name := JS.toLowerCase name in
      let value := JS.trim value in
      getAttributeMapLoop rest
        (if JS.truthy value then <[name := value]> map else map)
  end.

Definition getAttributeMap (attributes : option (list string))
  : result (gmap string string) :=
  getAttributeMapLoop (default [] attributes) ∅.

Definition getSelector (node : Node) : result string :=
  let* attributeMap := getAttributeMap (attributes node) in
  match attributeMap !! "id" with
  | Some id => Ok ("#" +:+ id)
  | None =>
      match attributeMap !! "class" with
      | Some attrClass =>
          if JS.truthy attrClass
          then Ok ("." +:+ JS.join "." (JS.splitWhiteSpace attrClass))
          else Ok (JS.toLowerCase (localName node))
      | None => Ok (JS.toLowerCase (localName node))
      end
  end.

Record TableNode : Type := {
  tn_selector : string;
  tn_snippet : string
}.

Fixpoint attributesString (idx : nat) (attributes : list string)
  : list string :=
  match attributes with
  | [] => []
  | value :: rest =>
      (if Nat.even idx then " " +:+ value
       else "=" +:+ JS.dquote +:+ value +:+ JS.dquote)
      :: attributesString (S idx) rest
  end.

Definition nodeToTableNode (node : Node) : result TableNode :=
  let attributes := default [] (attributes node) in
  let attributesString := JS.join "" (attributesString 0 attributes) in
  let* selector := match parentNode node with
                   | Some p => getSelector p
                   | None => Ok ""
                   end in
  Ok {| tn_selector := selector;
        tn_snippet := "<" +:+ localName node +:+ attributesString +:+ ">" |}.

(** ** findStyleRuleSource *)

Inductive UrlProvider : Type := comment | network.

Inductive SourceValue : Type :=
| url (value : string)
| code (value : string)
| source_location (u : string) (urlProvider : UrlProvider) (line column : Z).

Inductive SelectorValue : Type :=
| selString (s : string)
| selNode (n : TableNode).

Record StyleRuleSource : Type := {
  source : SourceValue;
  selector : SelectorValue
}.

Definition joinSelectors (rule : ParentRule) : string :=
  JS.join ", " (map text (selectors rule)).

Definition findStyleRuleSource (baseURL : string)
  (styleDeclaration : option CssRule) (node : Node) : result StyleRuleSource :=
  match styleDeclaration with
  | None =>
      let* n := nodeToTableNode node in
      Ok {| source := url baseURL; selector := selNode n |}
  | Some d =>
      if RuleType_eqb (type d) Attributes || RuleType_eqb (type d) Inline then
        let* n := nodeToTableNode node in
        Ok {| source := url baseURL; selector := selNode n |}
      else if match parentRule d with
              | Some rule => String.eqb (origin rule) "user-agent"
              | None => false
              end then
        Ok {| source := code "User Agent Stylesheet";
              selector := selString
                (match parentRule d with
                 | Some rule => joinSelectors rule
                 | None => ""
                 end) |}
      else
        let selector :=
          match parentRule d with
          | Some rule => joinSelectors rule
          | None => ""
          end in
        if match stylesheet d with
           | Some sheet => negb (JS.truthy (Stylesheet.sourceURL sheet))
           | None => false
           end then
          Ok {| source := code "dynamic"; selector := selString selector |}
        else
          match stylesheet d, range d with
          | Some sheet, Some range =>
              let urlProvider :=
                if Stylesheet.hasSourceURL sheet then comment else network in
              let line := Range.startLine range in
              let column := Range.startColumn range in
              let addHtmlLocationOffset :=
                Stylesheet.isInline sheet &&
                negb (match urlProvider with comment => true | network => false end) in
              let line :=
                if addHtmlLocationOffset
                then line + Stylesheet.startLine sheet else line in
              let column :=
                if addHtmlLocationOffset && (Range.startLine range =? 0)
                then column + Stylesheet.startColumn sheet else column in
              Ok {| source := source_location (Stylesheet.sourceURL sheet)
                                urlProvider line column;
                    selector := selString selector |}
          | _, _ =>
              Ok {| source := code "Unknown"; selector := selString selector |}
          end
  end.

(** ** The audit *)

Definition MINIMAL_PERCENTAGE_OF_LEGIBLE_TEXT : Q := 60.

Module UIStrings.
Definition displayValue : string :=
  "{decimalProportion, number, extendedPercent} legible text".
Definition explanationViewport : string :=
  "Text is illegible because there's no viewport meta tag optimized " +:+
  "for mobile screens.".
End UIStrings.

(** What [str_] returns: the message and the value substituted in it. *)
Record LocalizedString : Type := {
  message : string;
  decimalProportion : option Q
}.

Definition str_ (message : string) (decimalProportion : option Q)
  : LocalizedString :=
  {| message := message; decimalProportion := decimalProportion |}.

Record Heading : Type := {
  key : string;
  itemType : string;
  headingText : string
}.

Record TableItem : Type := {
  item_source : SourceValue;
  item_selector : SelectorValue;
  coverage : string;
  item_fontSize : string
}.

(** What [Audit.makeTableDetails] is given. *)
Record TableDetails : Type := {
  headings : list Heading;
  items : list TableItem
}.

Record Product : Type := {
  score : Z;
  notApplicable : option bool;
  explanation : option LocalizedString;
  details : option TableDetails;
  displayValue : option LocalizedString
}.

(** The [FontSize] artifact.  [D] is how the array of fragments is held: a
    list of records here, a reference into the store in module [Store]. *)
Record FontSizeArtifact (D : Type) : Type := {
  analyzedFailingNodesData : D;
  analyzedFailingTextLength : Z;
  failingTextLength : Z;
  totalTextLength : Z
}.

Arguments analyzedFailingNodesData {D} _.
Arguments analyzedFailingTextLength {D} _.
Arguments failingTextLength {D} _.
Arguments totalTextLength {D} _.

Record URLArtifact : Type := { finalUrl : string }.

Record ViewportMeta : Type := { isMobileOptimized : bool }.

(** The artifacts the audit requires.  [MetaElements] is only handed to the
    computed artifact [ComputedViewportMeta], so its type is left open. *)
Record Artifacts (D MetaElements : Type) : Type := {
  FontSize : FontSizeArtifact D;
  URL : URLArtifact;
  MetaElementsOf : MetaElements;
  TestedAsMobileDevice : bool
}.

Arguments FontSize {D MetaElements} _.
Arguments URL {D MetaElements} _.
Arguments MetaElementsOf {D MetaElements} _.
Arguments TestedAsMobileDevice {D MetaElements} _.

Definition headingsOfTable : list Heading :=
  [ {| key := "source"; itemType := "source-location"; headingText := "Source" |};
    {| key := "selector"; itemType := "code"; headingText := "Selector" |};
    {| key := "coverage"; itemType := "text"; headingText := "% of Page Text" |};
    {| key := "fontSize"; itemType := "text"; headingText := "Font Size" |} ].

(** [(totalTextLength - failingTextLength) / totalTextLength * 100] *)
Definition percentageOfPassingText {D : Type} (a : FontSizeArtifact D) : Q :=
  (inject_Z (totalTextLength a - failingTextLength a)
     / inject_Z (totalTextLength a) * 100)%Q.

(** The comparator given to [sort]. *)
Definition byTextLengthDesc (a b : FailingNodeData) : Z :=
  textLength b - textLength a.

(** [x / totalTextLength * 100], as the doubles compute it. *)
Definition percentage (x totalTextLength : Z) : Q :=
  JS.multiply (JS.divide (inject_Z x) (inject_Z totalTextLength)) 100.

(** The callback given to [map]: one row of the table for one rule. *)
Definition ruleToItem (pageUrl : string) (totalTextLength : Z)
  (r : FailingNodeData) : result TableItem :=
  let percentageOfAffectedText := percentage (textLength r) totalTextLength in
  let* origin := findStyleRuleSource pageUrl (cssRule r) (node r) in
  Ok {| item_source := source origin;
        item_selector := selector origin;
        coverage := JS.toFixed2 percentageOfAffectedText +:+ "%";
        item_fontSize := JS.numberToString (fontSize r) +:+ "px" |}.

Definition additionalIllegibleItem {D : Type} (a : FontSizeArtifact D)
  : TableItem :=
  let percentageOfUnanalyzedFailingText :=
    percentage (failingTextLength a - analyzedFailingTextLength a)
      (totalTextLength a) in
  {| item_source := code "Add'l illegible text";
     item_selector := selString "";
     coverage := JS.toFixed2 percentageOfUnanalyzedFailingText +:+ "%";
     item_fontSize := "< 12px" |}.

Definition legibleItem {D : Type} (a : FontSizeArtifact D) : TableItem :=
  {| item_source := code "Legible text";
     item_selector := selString "";
     coverage :=
       JS.toFixed2
         (percentage (totalTextLength a - failingTextLength a)
            (totalTextLength a)) +:+ "%";
     item_fontSize := "≥ 12px" |}.

(** [x > y] and [x >= y] on numbers. *)
Definition Qgtb (x y : Q) : bool := negb (Qle_bool x y).
Definition Qgeb (x y : Q) : bool := Qle_bool y x.

(** The end of [audit], from the rows of the rules on: the two [push]es,
    the display value, the details and the score. *)
Definition reportOf {D : Type} (a : FontSizeArtifact D)
  (tableData : list TableItem) : Product :=
  let tableData :=
    if analyzedFailingTextLength a <? failingTextLength a
    then tableData ++ [additionalIllegibleItem a] else tableData in
  let tableData :=
    if Qgtb (percentageOfPassingText a) 0
    then tableData ++ [legibleItem a] else tableData in
  let decimalProportion := (percentageOfPassingText a / 100)%Q in
  let displayValue := str_ UIStrings.displayValue (Some decimalProportion) in
  let details := {| headings := headingsOfTable; items := tableData |} in
  let passed :=
    Qgeb (percentageOfPassingText a) MINIMAL_PERCENTAGE_OF_LEGIBLE_TEXT in
  {| score := Z.b2z passed; notApplicable := None; explanation := None;
     details := Some details; displayValue := Some displayValue |}.

Definition notApplicableProduct : Product :=
  {| score := 1; notApplicable := Some true; explanation := None;
     details := None; displayValue := None |}.

Definition viewportProduct : Product :=
  {| score := 0; notApplicable := None;
     explanation := Some (str_ UIStrings.explanationViewport None);
     details := None; displayValue := None |}.

Definition noTextProduct : Product :=
  {| score := 1; notApplicable := None; explanation := None;
     details := None; displayValue := None |}.

Section Audit.
Context {MetaElements : Type}.
(** [ComputedViewportMeta.request], awaited by the audit; a rejection is
    a [Throw]. *)
Variable ComputedViewportMeta_request : MetaElements -> result ViewportMeta.

Definition audit (artifacts : Artifacts (list FailingNodeData) MetaElements)
  : result Product :=
  if negb (TestedAsMobileDevice artifacts) then Ok notApplicableProduct
  else
    let* viewportMeta :=
      ComputedViewportMeta_request (MetaElementsOf artifacts) in
    if negb (isMobileOptimized viewportMeta) then Ok viewportProduct
    else
      let a := FontSize artifacts in
      if totalTextLength a =? 0 then Ok noTextProduct
      else
        let failingRules :=
          getUniqueFailingRules (analyzedFailingNodesData a) in
        let pageUrl := finalUrl (URL artifacts) in
        let* tableData :=
          mapM (ruleToItem pageUrl (totalTextLength a))
            (JS.sort byTextLengthDesc failingRules) in
        Ok (reportOf a tableData).
End Audit.

(** ** The same functions over a store of mutable objects

    The source writes to objects in four places: the fresh [Map] and the
    fresh arrays ([set], [sort], [push]), and the [textLength] of a record
    held by the [Map].  Records and arrays of records are therefore objects
    of a store, reached through references; nodes, rules and the other
    artifacts are never written to and stay values. *)

Module Store.

(** A reference is the index of its object in the store. *)
Abbreviation loc := nat (only parsing).

Inductive cell : Type :=
| Rule (r : FailingNodeData)
| Array (a : list loc).

Abbreviation store := (list cell) (only parsing).

(** Computations that read and write the store and may throw. *)
Definition M (A : Type) : Type := store -> result A * store.

Definition ret {A : Type} (a : A) : M A := fun s => (Ok a, s).

Definition bindM {A B : Type} (m : M A) (k : A -> M B) : M B :=
  fun s =>
    match m s with
    | (Ok a, s') => k a s'
    | (Throw e, s') => (Throw e, s')
    end.

Definition lift {A : Type} (r : result A) : M A := fun s => (r, s).

Notation "'let!' x ':=' m 'in' k" := (bindM m (fun x => k))
  (at level 10, x name, m at level 100, k at level 200).

(** [new]: the object gets the next free reference. *)
Definition alloc (c : cell) : M loc :=
  fun s => (Ok (length s), s ++ [c]).

Definition readRule (l : loc) : M FailingNodeData :=
  fun s =>
    match s !! l with
    | Some (Rule r) => (Ok r, s)
    | _ => (Throw TypeError, s)
    end.

Definition readArray (l : loc) : M (list loc) :=
  fun s =>
    match s !! l with
    | Some (Array a) => (Ok a, s)
    | _ => (Throw TypeError, s)
    end.

Definition write (l : loc) (c : cell) : M unit :=
  fun s => (Ok tt, <[l := c]> s).

Fixpoint forEach {A : Type} (body : A -> loc -> M A) (a : list loc)
  (acc : A) : M A :=
  match a with
  | [] => ret acc
  | l :: a' => let! acc' := body acc l in forEach body a' acc'
  end.

Fixpoint mapArray {B : Type} (f : loc -> M B) (a : list loc) : M (list B) :=
  match a with
  | [] => ret []
  | l :: a' =>
      let! y := f l in let! ys := mapArray f a' in ret (y :: ys)
  end.

(** The body of the [forEach] callback; the [Map] holds references. *)
Definition collectFailingRule (failingRules : JS.Map loc) (l : loc)
  : M (JS.Map loc) :=
  let! f := readRule l in
  let artifactId := getFontArtifactId (cssRule f) (node f) in
  match JS.get artifactId failingRules with
  | None =>
      let! fresh :=
        alloc (Rule {| node := node f; cssRule := cssRule f;
                       fontSize := fontSize f;
                       textLength := textLength f |}) in
      ret (JS.set artifactId fresh failingRules)
  | Some failingRule =>
      let! r := readRule failingRule in
      let! _ := write failingRule (Rule (addTextLength r (textLength f))) in
      ret failingRules
  end.

Definition getUniqueFailingRules (fontSizeArtifact : loc) : M loc :=
  let! a := readArray fontSizeArtifact in
  let! failingRules := forEach collectFailingRule a [] in
  alloc (Array (JS.values failingRules)).

Definition textLengthAt (s : store) (l : loc) : Z :=
  match s !! l with
  | Some (Rule r) => textLength r
  | _ => 0
  end.

(** [failingRules.sort((a, b) => b.textLength - a.textLength)], in
    place. *)
Definition sortByTextLength (failingRules : loc) : M loc :=
  fun s =>
    match s !! failingRules with
    | Some (Array a) =>
        (Ok failingRules,
         <[failingRules :=
             Array (JS.sort
                      (fun x y => textLengthAt s y - textLengthAt s x) a)]> s)
    | _ => (Throw TypeError, s)
    end.

Section Audit.
Context {MetaElements : Type}.
Variable ComputedViewportMeta_request : MetaElements -> result ViewportMeta.

Definition audit (artifacts : Artifacts loc MetaElements) : M Product :=
  if negb (TestedAsMobileDevice artifacts) then ret notApplicableProduct
  else
    let! viewportMeta :=
      lift (ComputedViewportMeta_request (MetaElementsOf artifacts)) in
    if negb (isMobileOptimized viewportMeta) then ret viewportProduct
    else
      let a := FontSize artifacts in
      if totalTextLength a =? 0 then ret noTextProduct
      else
        let! failingRules :=
          getUniqueFailingRules (analyzedFailingNodesData a) in
        let pageUrl := finalUrl (URL artifacts) in
        let! sorted := sortByTextLength failingRules in
        let! rules := readArray sorted in
        let! tableData :=
          mapArray
            (fun l =>
               let! r := readRule l in
               lift (ruleToItem pageUrl (totalTextLength a) r))
            rules in
        ret (reportOf a tableData).
End Audit.

(** The fragments an array of the store holds, read as values. *)
Fixpoint rulesAt (s : store) (a : list loc)
  : option (list FailingNodeData) :=
  match a with
  | [] => Some []
  | l :: a' =>
      match s !! l, rulesAt s a' with
      | Some (Rule r), Some rs => Some (r :: rs)
      | _, _ => None
      end
  end.

(** The artifacts as values, when every reference leads to an object of
    the right kind. *)
Definition snapshot {MetaElements : Type} (s : store)
  (artifacts : Artifacts loc MetaElements)
  : option (Artifacts (list FailingNodeData) MetaElements) :=
  match s !! analyzedFailingNodesData (FontSize artifacts) with
  | Some (Array a) =>
      match rulesAt s a with
      | Some data =>
          Some {| FontSize :=
                    {| analyzedFailingNodesData := data;
                       analyzedFailingTextLength :=
                         analyzedFailingTextLength (FontSize artifacts);
                       failingTextLength :=
                         failingTextLength (FontSize artifacts);
                       totalTextLength :=
                         totalTextLength (FontSize artifacts) |};
                  URL := URL artifacts;
                  MetaElementsOf := MetaElementsOf artifacts;
                  TestedAsMobileDevice := TestedAsMobileDevice artifacts |}
      | None => None
      end
  | _ => None
  end.

End Store.

(** ** Auxiliary definitions used in the statements *)

(** The key under which [getUniqueFailingRules] files a fragment. *)
Definition artifactIdOf (f : FailingNodeData) : string :=
  getFontArtifactId (cssRule f) (node f).

Definition hasArtifactId (k : string) (f : FailingNodeData) : bool :=
  String.eqb (artifactIdOf f) k.

Fixpoint sumTextLength (l : list FailingNodeData) : Z :=
  match l with
  | [] => 0
  | f :: l' => textLength f + sumTextLength l'
  end.

(** The text length of all the fragments filed under [k]. *)
Definition textLengthOf (k : string) (l : list FailingNodeData) : Z :=
  sumTextLength (List.filter (hasArtifactId k) l).

(** The distinct keys of a sequence, in the order they are first seen. *)
Fixpoint firstSeen (ids : list string) : list string :=
  match ids with
  | [] => []
  | k :: ids' =>
      k :: List.filter (fun k' => negb (String.eqb k' k)) (firstSeen ids')
  end.

(** The row found under [k] in the aggregator's output. *)
Definition rowOf (k : string) (rows : list FailingNodeData)
  : option FailingNodeData :=
  List.find (hasArtifactId k) rows.

Definition withTextLength (f : FailingNodeData) (n : Z) : FailingNodeData :=
  {| node := node f; cssRule := cssRule f; fontSize := fontSize f;
     textLength := n |}.

(** A node whose attribute sequence pairs every name with a value. *)
Definition evenAttributes (n : Node) : Prop :=
  Nat.even (length (default [] (attributes n))) = true.

(** A node whose parent, if any, has such a sequence. *)
Definition parentEvenAttributes (n : Node) : Prop :=
  match parentNode n with
  | Some p => evenAttributes p
  | None => True
  end.

(** The first branch of [findStyleRuleSource]: no rule, or a rule of type
    Attributes or Inline. *)
Definition isNodeStyle (styleDeclaration : option CssRule) : bool :=
  match styleDeclaration with
  | None => true
  | Some d => RuleType_eqb (type d) Attributes || RuleType_eqb (type d) Inline
  end.

(** The second branch: a parent rule of user-agent origin. *)
Definition isUserAgentRule (d : CssRule) : bool :=
  match parentRule d with
  | Some rule => String.eqb (origin rule) "user-agent"
  | None => false
  end.

(** The selectors of the parent rule, joined. *)
Definition selectorOfRule (d : CssRule) : string :=
  match parentRule d with
  | Some rule => joinSelectors rule
  | None => ""
  end.

(** The state of the audit in which the table is built: tested as a mobile
    device, the viewport classified as optimized for mobile, and some
    text. *)
Definition fullAnalysis {D MetaElements : Type}
  (request : MetaElements -> result ViewportMeta)
  (artifacts : Artifacts D MetaElements) : Prop :=
  TestedAsMobileDevice artifacts = true /\
  (exists v, request (MetaElementsOf artifacts) = Ok v /\
             isMobileOptimized v = true) /\
  totalTextLength (FontSize artifacts) <> 0.

(** The rules of the table, sorted, before they are turned into rows. *)
Definition sortedRules (data : list FailingNodeData) : list FailingNodeData :=
  JS.sort byTextLengthDesc (getUniqueFailingRules data).


(** The rule of a fragment when it is of type Regular, the case in which
    [getFontArtifactId] builds the id from the rule. *)
Definition regularRule (f : FailingNodeData) : option CssRule :=
  match cssRule f with
  | Some d => if RuleType_eqb (type d) Regular then Some d else None
  | None => None
  end.

(** The start of a rule's range, 0:0 without a range. *)
Definition startOf (d : CssRule) : Z * Z :=
  match range d with
  | Some r => (Range.startLine r, Range.startColumn r)
  | None => (0, 0)
  end.

(** A character that is neither a digit nor the minus sign. *)
Definition outsideNumber (c : ascii) : bool :=
  (nat_of_ascii c <? 45)%nat || (57 <? nat_of_ascii c)%nat.

(** [c] occurs in [s]. *)
Fixpoint occurs (c : ascii) (s : string) : bool :=
  match s with
  | EmptyString => false
  | String c' s' => Ascii.eqb c c' || occurs c s'
  end.

(** What one fragment does to the entry of [k] in the map. *)
Definition aggregateStep (k : string) (o : option FailingNodeData)
  (f : FailingNodeData) : option FailingNodeData :=
  if hasArtifactId k f then
    Some (match o with
          | None => withTextLength f (textLength f)
          | Some v => addTextLength v (textLength f)
          end)
  else o.

(** Every entry of the map is filed under its own key. *)
Definition keyed (m : JS.Map FailingNodeData) : Prop :=
  Forall (fun e => artifactIdOf (snd e) = fst e) m.

Definition notIn (ks : list string) (k : string) : bool :=
  negb (existsb (String.eqb k) ks).



(** *** Invariants of the store *)

(** [s'] has every object of [s0], unchanged. *)
Definition extends (s0 s' : list Store.cell) : Prop :=
  forall l, (l < length s0)%nat -> s' !! l = s0 !! l.

Definition frame (s0 s : list Store.cell) : Prop :=
  (length s0 <= length s)%nat /\ extends s0 s.

(** The invariant of the loop of [getUniqueFailingRules]: the objects of
    [s0] are unchanged and the map holds references to objects created
    since. *)
Definition frameInv (s0 s : list Store.cell) (m : JS.Map nat) : Prop :=
  (length s0 <= length s)%nat /\ extends s0 s /\
  Forall (fun l => (length s0 <= l)%nat) (JS.values m).

(** The references [ls] lead to the records [vs]. *)
Definition holds (s : list Store.cell) (ls : list nat)
  (vs : list FailingNodeData) : Prop :=
  Forall2 (fun l v => s !! l = Some (Store.Rule v)) ls vs.

Definition entry (s : list Store.cell) (e : string * nat)
  (e' : string * FailingNodeData) : Prop :=
  fst e = fst e' /\ s !! snd e = Some (Store.Rule (snd e')).

(** The map of references and the map of values, side by side. *)
Definition sim (s0 s : list Store.cell) (ml : JS.Map nat)
  (mp : JS.Map FailingNodeData) : Prop :=
  frame s0 s /\ Forall2 (entry s) ml mp /\
  List.NoDup (JS.values ml) /\
  Forall (fun l => (length s0 <= l < length s)%nat) (JS.values ml).

(** *** Definitions used in the further properties *)

(** The value found under [k] after the loop of [getAttributeMap] has run
    over [attributes], when it was [acc] before: that of the last pair
    whose lower-cased name is [k] and whose trimmed value is not empty. *)
Fixpoint lastValue (k : string) (attributes : list string)
  (acc : option string) : option string :=
  match attributes with
  | name :: value :: rest =>
      lastValue k rest
        (if String.eqb (JS.toLowerCase name) k && JS.truthy (JS.trim value)
         then Some (JS.trim value) else acc)
  | _ => acc
  end.

(** A white-space character starts somewhere in [l]. *)
Fixpoint hasWhiteSpaceBytes (l : list ascii) : bool :=
  match l with
  | [] => false
  | _ :: l' =>
      match JS.stripFirst JS.whiteSpaces l with
      | Some _ => true
      | None => hasWhiteSpaceBytes l'
      end
  end.

Definition hasWhiteSpace (s : string) : bool :=
  hasWhiteSpaceBytes (list_ascii_of_string s).

(** A piece of a class selector: not empty, without white space. *)
Definition isToken (s : string) : Prop :=
  s <> EmptyString /\ hasWhiteSpace s = false.

(** [x / total * 100] *)
Definition percentOf (x total : Z) : Q :=
  (inject_Z x / inject_Z total * 100)%Q.

Fixpoint sumQ (l : list Q) : Q :=
  match l with
  | [] => 0%Q
  | q :: l' => (q + sumQ l')%Q
  end.

Fixpoint sumZ (l : list Z) : Z :=
  match l with
  | [] => 0
  | x :: l' => x + sumZ l'
  end.

(** The text lengths behind the [coverage] column of a full report: those
    of the sorted rules, then the failing text that was not analyzed and
    the passing text, when they have a row. *)
Definition coverageLengths (a : FontSizeArtifact (list FailingNodeData))
  : list Z :=
  map textLength (sortedRules (analyzedFailingNodesData a))
  ++ (if analyzedFailingTextLength a <? failingTextLength a
      then [failingTextLength a - analyzedFailingTextLength a] else [])
  ++ (if Qgtb (percentageOfPassingText a) 0
      then [totalTextLength a - failingTextLength a] else []).

(** A fragment whose row the source locator can resolve. *)
Definition resolvable (r : FailingNodeData) : Prop :=
  isNodeStyle (cssRule r) = true -> parentEvenAttributes (node r).

(** ** Sample artifacts *)

Module Examples.
Definition request (_ : unit) : result ViewportMeta :=
  Ok {| isMobileOptimized := true |}.

Definition requestNotOptimized (_ : unit) : result ViewportMeta :=
  Ok {| isMobileOptimized := false |}.

Definition body : Node :=
  {| nodeId := 1; localName := "BODY";
     attributes := Some ["class"; "main  page"]; parentNode := None |}.

Definition para : Node :=
  {| nodeId := 2; localName := "P"; attributes := None;
     parentNode := Some body |}.

Definition span : Node :=
  {| nodeId := 3; localName := "SPAN"; attributes := Some ["ID"; " note "];
     parentNode := Some body |}.

(** A node whose id is a no-break space and whose class has one between
    its two names. *)
Definition noBreakSpace : string :=
  String (ascii_of_nat 194) (String (ascii_of_nat 160) EmptyString).

Definition spaced : Node :=
  {| nodeId := 6; localName := "I";
     attributes := Some ["id"; noBreakSpace;
                         "class"; "a" +:+ noBreakSpace +:+ "b"];
     parentNode := None |}.

(** A node whose only attribute name has no value after it. *)
Definition oddParent : Node :=
  {| nodeId := 4; localName := "DIV"; attributes := Some ["hidden"];
     parentNode := None |}.

Definition oddChild : Node :=
  {| nodeId := 5; localName := "B"; attributes := None;
     parentNode := Some oddParent |}.

Definition authorRule : ParentRule :=
  {| origin := "regular";
     selectors := [ {| text := ".a" |}; {| text := ".b" |} ] |}.

Definition userAgentParent : ParentRule :=
  {| origin := "user-agent"; selectors := [ {| text := "small" |} ] |}.

(** Scenario F: an inline style sheet at line 5, column 2. *)
Definition inlineSheet : Stylesheet.t :=
  Stylesheet.make "http://example.com/" false true 5 2.

Definition inlineSheetRule (line column : Z) : CssRule :=
  {| type := Regular; styleSheetId := "s1";
     range := Some (Range.make line column);
     parentRule := Some authorRule; stylesheet := Some inlineSheet |}.

(** A rule of which only the style sheet id and the range are known. *)
Definition bareRule (t : RuleType) (sheet : string) : CssRule :=
  {| type := t; styleSheetId := sheet; range := Some (Range.make 0 0);
     parentRule := None; stylesheet := None |}.

(** A rule of type Regular with no style sheet object, from the user
    agent. *)
Definition userAgentRule : CssRule :=
  {| type := Regular; styleSheetId := "ua"; range := None;
     parentRule := Some userAgentParent; stylesheet := None |}.

Definition unlocatedRule : CssRule :=
  {| type := Regular; styleSheetId := "s2";
     range := Some (Range.make 7 1);
     parentRule := Some authorRule; stylesheet := None |}.

Definition fragment (n : Node) (d : option CssRule) (size : Q) (len : Z)
  : FailingNodeData :=
  {| node := n; cssRule := d; fontSize := size; textLength := len |}.

(** Two fragments of the rule [s1@0:0], of different font sizes. *)
Definition small : FailingNodeData :=
  fragment para (Some (bareRule Regular "s1")) 10 300.
Definition smaller : FailingNodeData :=
  fragment span (Some (bareRule Regular "s1")) 8 200.

(** Two fragments of different nodes whose inline styles carry the same
    style sheet id and range. *)
Definition inlineOfPara : FailingNodeData :=
  fragment para (Some (bareRule Inline "s1")) 10 10.
Definition inlineOfSpan : FailingNodeData :=
  fragment span (Some (bareRule Inline "s1")) 10 10.

(** A fragment that differs from [inlineOfPara] in the style sheet
    only. *)
Definition inlineOfParaOtherSheet : FailingNodeData :=
  fragment para (Some (bareRule Inline "s2")) 10 10.

Definition artifactsOf (data : list FailingNodeData)
  (analyzed failing total : Z) (mobile : bool)
  : Artifacts (list FailingNodeData) unit :=
  {| FontSize := {| analyzedFailingNodesData := data;
                    analyzedFailingTextLength := analyzed;
                    failingTextLength := failing;
                    totalTextLength := total |};
     URL := {| finalUrl := "http://example.com/" |};
     MetaElementsOf := tt;
     TestedAsMobileDevice := mobile |}.

(** Scenario D: all the failing text was analyzed. *)
Definition scenarioD : Artifacts (list FailingNodeData) unit :=
  artifactsOf [small] 300 300 1000 true.

(** Scenario E: 200 of the 300 failing characters were not analyzed. *)
Definition scenarioE : Artifacts (list FailingNodeData) unit :=
  artifactsOf [fragment para (Some (bareRule Regular "s1")) 10 100]
    100 300 1000 true.

(** Scenario G: four fragments of three rules on a page of 160
    characters, 14 of its 100 failing characters not analyzed.  The rule
    of the second and the fourth fragment has the most text; the other
    two have 23 characters each. *)
Definition externalSheet : Stylesheet.t :=
  Stylesheet.make "http://example.com/main.css" false false 0 0.

Definition externalRule : CssRule :=
  {| type := Regular; styleSheetId := "s3";
     range := Some (Range.make 12 4);
     parentRule := Some authorRule; stylesheet := Some externalSheet |}.

Definition scenarioG : Artifacts (list FailingNodeData) unit :=
  artifactsOf
    [ fragment para None (23 # 2) 23;
      fragment span (Some externalRule) 10 25;
      fragment body (Some userAgentRule) 9 23;
      fragment para (Some externalRule) 10 15 ]
    86 100 160 true.

(** A store with the two fragments of [s1@0:0] and their array. *)
Definition store : list Store.cell :=
  [Store.Rule small; Store.Rule smaller; Store.Array [0%nat; 1%nat]].

Definition storeArtifacts : Artifacts nat unit :=
  {| FontSize := {| analyzedFailingNodesData := 2%nat;
                    analyzedFailingTextLength := 500;
                    failingTextLength := 500;
                    totalTextLength := 1000 |};
     URL := {| finalUrl := "http://example.com/" |};
     MetaElementsOf := tt;
     TestedAsMobileDevice := true |}.

Definition storeValues : Artifacts (list FailingNodeData) unit :=
  artifactsOf [small; smaller] 500 500 1000 true.
End Examples.

(** ** The ordered map *)

Section OrderedMapFacts.
Context {V : Type}.
Implicit Types (m : JS.Map V) (k : string) (v : V).

Lemma get_set_eq k v m : JS.get k (JS.set k v m) = Some v.
Proof.
  induction m as [|[k' v'] m IH]; simpl.
  - by rewrite String.eqb_refl.
  - destruct (String.eqb k k') eqn:E; simpl; rewrite E; [done | exact IH].
Qed.

Lemma get_set_ne k k' v m :
  k <> k' -> JS.get k' (JS.set k v m) = JS.get k' m.
Proof.
  intros Hne. induction m as [|[k0 v0] m IH]; simpl.
  - destruct (String.eqb k' k) eqn:E; [|done].
    apply String.eqb_eq in E. congruence.
  - destruct (String.eqb k k0) eqn:E; simpl.
    + apply String.eqb_eq in E. subst k0.
      destruct (String.eqb k' k) eqn:E'; [|done].
      apply String.eqb_eq in E'. congruence.
    + by rewrite IH.
Qed.

Lemma get_None_keys k m : JS.get k m = None <-> ~ In k (JS.keys m).
Proof.
  induction m as [|[k' v'] m IH]; simpl; [tauto|].
  destruct (String.eqb k k') eqn:E.
  - apply String.eqb_eq in E. subst. split; [done | tauto].
  - apply String.eqb_neq in E. rewrite IH. split; [|tauto].
    intros H [?|?]; [congruence | tauto].
Qed.

Lemma keys_set_present k v m :
  JS.get k m <> None -> JS.keys (JS.set k v m) = JS.keys m.
Proof.
  induction m as [|[k' v'] m IH]; simpl; [done|].
  destruct (String.eqb k k') eqn:E; simpl; [done|].
  intros H. by rewrite IH.
Qed.

Lemma set_absent k v m :
  JS.get k m = None -> JS.set k v m = m ++ [(k, v)].
Proof.
  induction m as [|[k' v'] m IH]; simpl; [done|].
  destruct (String.eqb k k') eqn:E; [done|].
  intros H. by rewrite IH.
Qed.
End OrderedMapFacts.

(** ** The aggregator *)

Section Aggregator.
Implicit Types (m : JS.Map FailingNodeData) (k : string).
Implicit Types (f v : FailingNodeData) (l : list FailingNodeData).

Lemma artifactIdOf_addTextLength v n :
  artifactIdOf (addTextLength v n) = artifactIdOf v.
Proof. reflexivity. Qed.

Lemma artifactIdOf_withTextLength f n :
  artifactIdOf (withTextLength f n) = artifactIdOf f.
Proof. reflexivity. Qed.

Lemma hasArtifactId_true k f : hasArtifactId k f = true <-> artifactIdOf f = k.
Proof. apply String.eqb_eq. Qed.

Lemma hasArtifactId_false k f :
  hasArtifactId k f = false <-> artifactIdOf f <> k.
Proof. apply String.eqb_neq. Qed.

Lemma get_collectFailingRule k m f :
  JS.get k (collectFailingRule m f) = aggregateStep k (JS.get k m) f.
Proof.
  unfold collectFailingRule, aggregateStep.
  destruct (hasArtifactId k f) eqn:E.
  - apply hasArtifactId_true in E. fold (artifactIdOf f). rewrite E.
    destruct (JS.get k m); apply get_set_eq.
  - apply hasArtifactId_false in E. fold (artifactIdOf f).
    destruct (JS.get (artifactIdOf f) m); by apply get_set_ne.
Qed.

Lemma get_fold_collect k l m :
  JS.get k (fold_left collectFailingRule l m)
  = fold_left (aggregateStep k) l (JS.get k m).
Proof.
  revert m. induction l as [|f l IH]; intros m; simpl; [done|].
  by rewrite IH, get_collectFailingRule.
Qed.

Lemma addTextLength_0 v : addTextLength v 0 = v.
Proof. destruct v. unfold addTextLength. simpl. by rewrite Z.add_0_r. Qed.

Lemma addTextLength_add v a b :
  addTextLength (addTextLength v a) b = addTextLength v (a + b).
Proof. unfold addTextLength. simpl. by rewrite Z.add_assoc. Qed.

Lemma textLengthOf_cons k f l :
  textLengthOf k (f :: l)
  = (if hasArtifactId k f then textLength f else 0) + textLengthOf k l.
Proof.
  unfold textLengthOf. simpl. by destruct (hasArtifactId k f).
Qed.

Lemma fold_aggregateStep_Some k l v :
  fold_left (aggregateStep k) l (Some v)
  = Some (addTextLength v (textLengthOf k l)).
Proof.
  revert v. induction l as [|f l IH]; intros v.
  - simpl. by rewrite addTextLength_0.
  - simpl. rewrite textLengthOf_cons. unfold aggregateStep at 2.
    destruct (hasArtifactId k f).
    + by rewrite IH, addTextLength_add.
    + by rewrite IH.
Qed.

Lemma fold_aggregateStep_None k l :
  fold_left (aggregateStep k) l None
  = option_map (fun f => withTextLength f (textLengthOf k l))
      (List.find (hasArtifactId k) l).
Proof.
  induction l as [|f l IH]; [done|].
  simpl. rewrite textLengthOf_cons. unfold aggregateStep at 2.
  destruct (hasArtifactId k f).
  - by rewrite fold_aggregateStep_Some.
  - rewrite IH. by destruct (List.find _ l).
Qed.

Lemma keyed_set k v m :
  artifactIdOf v = k -> keyed m -> keyed (JS.set k v m).
Proof.
  intros Hv. induction 1 as [|[k' v'] m Hh Ht IH]; simpl.
  - by repeat constructor.
  - destruct (String.eqb k k') eqn:E.
    + apply String.eqb_eq in E. subst k'. by constructor.
    + by constructor.
Qed.

Lemma keyed_get k v m : keyed m -> JS.get k m = Some v -> artifactIdOf v = k.
Proof.
  induction 1 as [|[k' v'] m Hh Ht IH]; simpl; [done|].
  destruct (String.eqb k k') eqn:E.
  - apply String.eqb_eq in E. intros [= <-]. by subst.
  - exact IH.
Qed.

Lemma keyed_collectFailingRule m f : keyed m -> keyed (collectFailingRule m f).
Proof.
  intros Hm. unfold collectFailingRule.
  destruct (JS.get _ m) as [v|] eqn:E; apply keyed_set; try done.
  rewrite artifactIdOf_addTextLength. by eapply keyed_get.
Qed.

Lemma keyed_fold_collect l m :
  keyed m -> keyed (fold_left collectFailingRule l m).
Proof.
  revert m. induction l as [|f l IH]; intros m Hm; simpl; [done|].
  by apply IH, keyed_collectFailingRule.
Qed.

Lemma keyed_ids m : keyed m -> map artifactIdOf (JS.values m) = JS.keys m.
Proof.
  induction 1 as [|[k v] m Hh Ht IH]; simpl; [done|].
  simpl in Hh. by rewrite Hh, IH.
Qed.

Lemma keyed_rowOf k m : keyed m -> rowOf k (JS.values m) = JS.get k m.
Proof.
  induction 1 as [|[k' v'] m Hh Ht IH]; simpl; [done|].
  simpl in Hh. unfold rowOf in *. simpl. unfold hasArtifactId at 1.
  rewrite Hh, String.eqb_sym. by destruct (String.eqb k k').
Qed.

(** The row of a key: the first fragment filed under it, with the text
    length of all of them. *)
Lemma rowOf_getUniqueFailingRules k l :
  rowOf k (getUniqueFailingRules l)
  = option_map (fun f => withTextLength f (textLengthOf k l))
      (List.find (hasArtifactId k) l).
Proof.
  unfold getUniqueFailingRules.
  rewrite keyed_rowOf by (apply keyed_fold_collect; constructor).
  by rewrite get_fold_collect, fold_aggregateStep_None.
Qed.
End Aggregator.

Section AggregatorKeys.
Implicit Types (m : JS.Map FailingNodeData) (k : string).
Implicit Types (f v : FailingNodeData) (l : list FailingNodeData).

Lemma existsb_eqb_In k ks : existsb (String.eqb k) ks = true <-> In k ks.
Proof.
  rewrite existsb_exists. split.
  - intros (x & Hx & E). apply String.eqb_eq in E. by subst.
  - intros H. exists k. by rewrite String.eqb_refl.
Qed.

Lemma filter_filter_implied {A : Type} (p q : A -> bool) (xs : list A) :
  (forall x, p x = true -> q x = true) ->
  List.filter p (List.filter q xs) = List.filter p xs.
Proof.
  intros H. induction xs as [|x xs IH]; simpl; [done|].
  destruct (q x) eqn:Eq; simpl.
  - by rewrite IH.
  - destruct (p x) eqn:Ep; [|done]. apply H in Ep. congruence.
Qed.

Lemma filter_filter_andb {A : Type} (p q : A -> bool) (xs : list A) :
  List.filter p (List.filter q xs) = List.filter (fun x => q x && p x) xs.
Proof.
  induction xs as [|x xs IH]; simpl; [done|].
  destruct (q x); simpl; [|done]. destruct (p x); by rewrite IH.
Qed.

Lemma filter_true {A : Type} (p : A -> bool) (xs : list A) :
  (forall x, p x = true) -> List.filter p xs = xs.
Proof.
  intros H. induction xs as [|x xs IH]; simpl; [done|]. by rewrite H, IH.
Qed.

Lemma keys_collectFailingRule m f :
  JS.keys (collectFailingRule m f)
  = if notIn (JS.keys m) (artifactIdOf f)
    then JS.keys m ++ [artifactIdOf f] else JS.keys m.
Proof.
  unfold collectFailingRule, notIn. fold (artifactIdOf f).
  destruct (JS.get (artifactIdOf f) m) as [v|] eqn:E.
  - assert (In (artifactIdOf f) (JS.keys m)) as Hin.
    { destruct (in_dec string_dec (artifactIdOf f) (JS.keys m)) as [|Hn];
        [done|]. apply get_None_keys in Hn. congruence. }
    apply existsb_eqb_In in Hin. rewrite Hin. simpl.
    apply keys_set_present. congruence.
  - pose proof E as Hn. apply get_None_keys in Hn.
    destruct (existsb _ _) eqn:Ex.
    + apply existsb_eqb_In in Ex. tauto.
    + simpl. rewrite set_absent by done. unfold JS.keys.
      by rewrite map_app.
Qed.

Lemma keys_fold_collect l m :
  JS.keys (fold_left collectFailingRule l m)
  = JS.keys m
    ++ List.filter (notIn (JS.keys m)) (firstSeen (map artifactIdOf l)).
Proof.
  revert m. induction l as [|f l IH]; intros m; simpl.
  - by rewrite app_nil_r.
  - rewrite IH, keys_collectFailingRule.
    destruct (notIn (JS.keys m) (artifactIdOf f)) eqn:E.
    + rewrite <- app_assoc. simpl. do 2 f_equal.
      rewrite filter_filter_andb. apply List.filter_ext. intros k.
      unfold notIn. rewrite existsb_app. simpl.
      rewrite orb_false_r, negb_orb. apply andb_comm.
    + f_equal. symmetry. apply filter_filter_implied.
      intros k Hk. unfold notIn in *. apply negb_true_iff.
      apply negb_false_iff, existsb_eqb_In in E.
      destruct (String.eqb k (artifactIdOf f)) eqn:Ek; [|done].
      apply String.eqb_eq in Ek. subst k.
      apply negb_true_iff in Hk.
      apply existsb_eqb_In in E. congruence.
Qed.

(** The rows are keyed by the distinct ids of the fragments, in the
    order in which they are first seen. *)
Lemma ids_getUniqueFailingRules l :
  map artifactIdOf (getUniqueFailingRules l)
  = firstSeen (map artifactIdOf l).
Proof.
  unfold getUniqueFailingRules.
  rewrite keyed_ids by (apply keyed_fold_collect; constructor).
  rewrite keys_fold_collect. simpl. by apply filter_true.
Qed.

Lemma In_firstSeen k ids : In k (firstSeen ids) <-> In k ids.
Proof.
  induction ids as [|k' ids IH]; simpl; [done|].
  rewrite filter_In, IH.
  destruct (String.eqb k k') eqn:E.
  - apply String.eqb_eq in E. subst. tauto.
  - apply String.eqb_neq in E. simpl. split; [tauto|].
    intros [?|?]; [congruence | tauto].
Qed.

Lemma NoDup_firstSeen ids : List.NoDup (firstSeen ids).
Proof.
  induction ids as [|k ids IH]; simpl; constructor.
  - rewrite filter_In. intros [_ H]. by rewrite String.eqb_refl in H.
  - by apply List.NoDup_filter.
Qed.

Lemma sumTextLength_app l l' :
  sumTextLength (l ++ l') = sumTextLength l + sumTextLength l'.
Proof. induction l as [|f l IH]; simpl; lia. Qed.

Lemma sumTextLength_set k v v0 m :
  JS.get k m = Some v0 ->
  sumTextLength (JS.values (JS.set k v m))
  = sumTextLength (JS.values m) - textLength v0 + textLength v.
Proof.
  induction m as [|[k' v'] m IH]; simpl; [done|].
  destruct (String.eqb k k'); simpl.
  - intros [= ->]. lia.
  - intros H. rewrite IH by done. lia.
Qed.

Lemma sumTextLength_collectFailingRule m f :
  sumTextLength (JS.values (collectFailingRule m f))
  = sumTextLength (JS.values m) + textLength f.
Proof.
  unfold collectFailingRule.
  destruct (JS.get _ m) as [v|] eqn:E.
  - erewrite sumTextLength_set by done. simpl. lia.
  - rewrite set_absent by done. unfold JS.values.
    rewrite map_app, sumTextLength_app. simpl. lia.
Qed.

Lemma sumTextLength_fold_collect l m :
  sumTextLength (JS.values (fold_left collectFailingRule l m))
  = sumTextLength (JS.values m) + sumTextLength l.
Proof.
  revert m. induction l as [|f l IH]; intros m; simpl; [lia|].
  rewrite IH, sumTextLength_collectFailingRule. lia.
Qed.

Lemma sumTextLength_getUniqueFailingRules l :
  sumTextLength (getUniqueFailingRules l) = sumTextLength l.
Proof.
  unfold getUniqueFailingRules. by rewrite sumTextLength_fold_collect.
Qed.
End AggregatorKeys.

(** ** Sorting *)

Section SortFacts.
Context {A : Type} (cmp : A -> A -> Z).

Lemma sortInsert_perm x (l : list A) :
  Permutation (JS.sortInsert cmp x l) (x :: l).
Proof.
  induction l as [|y l IH]; simpl; [done|].
  destruct (cmp x y <=? 0); [done|].
  rewrite IH. apply perm_swap.
Qed.

Lemma sort_perm (l : list A) : Permutation (JS.sort cmp l) l.
Proof.
  induction l as [|x l IH]; simpl; [done|].
  by rewrite sortInsert_perm, IH.
Qed.
End SortFacts.

Section SortByWeight.
Context {A : Type} (w : A -> Z).




End SortByWeight.

Lemma sort_related {A B : Type} (R : A -> B -> Prop)
  (cmp1 : A -> A -> Z) (cmp2 : B -> B -> Z) (l1 : list A) (l2 : list B) :
  (forall x x' y y', In x l1 -> In y l1 -> R x x' -> R y y' ->
                     cmp1 x y = cmp2 x' y') ->
  Forall2 R l1 l2 -> Forall2 R (JS.sort cmp1 l1) (JS.sort cmp2 l2).
Proof.
  intros Hc H. induction H as [|x x' l1 l2 Hx Hl IH]; simpl; [constructor|].
  assert (Forall2 R (JS.sort cmp1 l1) (JS.sort cmp2 l2)) as Hs.
  { apply IH. intros; apply Hc; simpl; auto. }
  assert (forall y, In y (JS.sort cmp1 l1) -> In y (x :: l1)) as Hin.
  { intros y Hy. right. eapply Permutation_in; [apply sort_perm | exact Hy]. }
  clear IH Hl. induction Hs as [|y y' s1 s2 Hy Hs IH]; simpl.
  - by repeat constructor.
  - rewrite (Hc x x' y y'); [|apply in_eq|apply Hin, in_eq|done|done].
    destruct (cmp2 x' y' <=? 0).
    + by repeat constructor.
    + constructor; [done|]. apply IH. intros z Hz. apply Hin. by right.
Qed.

(** ** Sequencing of results *)

Lemma mapM_Ok {A B : Type} (f : A -> result B) (l : list A) (ys : list B) :
  mapM f l = Ok ys <-> Forall2 (fun x y => f x = Ok y) l ys.
Proof.
  revert ys. induction l as [|x l IH]; intros ys; simpl.
  - split; [intros [= <-]; constructor | by inversion 1].
  - destruct (f x) as [y|e] eqn:E; simpl.
    + destruct (mapM f l) as [ys'|e] eqn:E'; simpl.
      * split.
        -- intros [= <-]. constructor; [done|]. by apply IH.
        -- inversion 1 as [|? ? ? ? Hy Hl]; subst.
           apply IH in Hl. congruence.
      * split; [done|]. inversion 1 as [|? ? ? ? Hy Hl]; subst.
        apply IH in Hl. congruence.
    + split; [done|]. inversion 1; congruence.
Qed.


Lemma mapM_total {A B : Type} (f : A -> result B) (l : list A) :
  Forall (fun x => exists y, f x = Ok y) l -> exists ys, mapM f l = Ok ys.
Proof.
  induction 1 as [|x l [y Hy] Hl [ys IH]]; simpl.
  - by eexists.
  - rewrite Hy, IH. simpl. by eexists.
Qed.

(** ** Selector resolution *)

Lemma list_pair_ind {A : Type} (P : list A -> Prop) :
  P [] -> (forall x, P [x]) -> (forall x y l, P l -> P (x :: y :: l)) ->
  forall l, P l.
Proof.
  intros H0 H1 H2.
  assert (forall l, P l /\ forall x, P (x :: l)) as H.
  { induction l as [|y l [IH1 IH2]]; split; auto. }
  intros l. apply H.
Qed.

Lemma getAttributeMapLoop_odd (attrs : list string) (m : gmap string string) :
  Nat.odd (length attrs) = true ->
  getAttributeMapLoop attrs m = Throw TypeError.
Proof.
  revert m. induction attrs as [| x | x y l IH] using list_pair_ind;
    intros m; simpl; [done | done |].
  intros H. by apply IH.
Qed.

Lemma getAttributeMapLoop_even (attrs : list string) (m : gmap string string) :
  Nat.even (length attrs) = true ->
  exists m', getAttributeMapLoop attrs m = Ok m'.
Proof.
  revert m. induction attrs as [| x | x y l IH] using list_pair_ind;
    intros m; simpl; [by eexists | done |].
  intros H. by apply IH.
Qed.

Lemma getSelector_odd (n : Node) :
  Nat.odd (length (default [] (attributes n))) = true ->
  getSelector n = Throw TypeError.
Proof.
  intros H. unfold getSelector, getAttributeMap.
  by rewrite getAttributeMapLoop_odd.
Qed.

Lemma getSelector_even (n : Node) :
  evenAttributes n -> exists s, getSelector n = Ok s.
Proof.
  intros H. unfold getSelector, getAttributeMap.
  destruct (getAttributeMapLoop_even (default [] (attributes n)) ∅ H)
    as [m ->].
  simpl. destruct (m !! "id"); [by eexists|].
  destruct (m !! "class") as [c|]; [|by eexists].
  destruct (JS.truthy c); by eexists.
Qed.

Lemma nodeToTableNode_even (n : Node) :
  parentEvenAttributes n -> exists t, nodeToTableNode n = Ok t.
Proof.
  unfold parentEvenAttributes, nodeToTableNode.
  destruct (parentNode n) as [p|]; [|by eexists].
  intros H. destruct (getSelector_even p H) as [s ->]. by eexists.
Qed.

Lemma nodeToTableNode_odd (n p : Node) :
  parentNode n = Some p ->
  Nat.odd (length (default [] (attributes p))) = true ->
  nodeToTableNode n = Throw TypeError.
Proof.
  intros Hp H. unfold nodeToTableNode. rewrite Hp.
  by rewrite getSelector_odd.
Qed.

Lemma findStyleRuleSource_total (baseURL : string) (d : option CssRule)
  (n : Node) :
  parentEvenAttributes n -> exists r, findStyleRuleSource baseURL d n = Ok r.
Proof.
  intros H. destruct (nodeToTableNode_even n H) as [t Ht].
  unfold findStyleRuleSource. destruct d as [d|]; [|rewrite Ht; by eexists].
  destruct (RuleType_eqb (type d) Attributes || RuleType_eqb (type d) Inline);
    [rewrite Ht; by eexists|].
  destruct (match parentRule d with Some _ => _ | None => _ end);
    [by eexists|].
  destruct (match stylesheet d with Some _ => _ | None => _ end);
    [by eexists|].
  destruct (stylesheet d), (range d); by eexists.
Qed.

Lemma findStyleRuleSource_nodeStyle_odd (baseURL : string)
  (d : option CssRule) (n p : Node) :
  isNodeStyle d = true ->
  parentNode n = Some p ->
  Nat.odd (length (default [] (attributes p))) = true ->
  findStyleRuleSource baseURL d n = Throw TypeError.
Proof.
  intros Hd Hp H. unfold findStyleRuleSource, isNodeStyle in *.
  rewrite (nodeToTableNode_odd n p Hp H).
  destruct d as [d|]; [|done]. by rewrite Hd.
Qed.

(** C9.  Selector resolution fails exactly on attribute sequences of odd
    length: for a node whose sequence has odd length, [getAttributeMap]
    reads past its end and throws a [TypeError], so does [getSelector], and
    so does the source locator wherever its first branch (no rule, or a
    rule of type Attributes or Inline) resolves the selector of that node
    as the parent; for a node whose sequence has even length [getSelector]
    returns a selector, and for a node whose parent (if any) has such a
    sequence every branch of the source locator returns. *)
Theorem selector_resolution_total_iff_even (n : Node) :
  (Nat.odd (length (default [] (attributes n))) = true ->
   getAttributeMap (attributes n) = Throw TypeError /\
   getSelector n = Throw TypeError /\
   forall baseURL d child,
     isNodeStyle d = true -> parentNode child = Some n ->
     findStyleRuleSource baseURL d child = Throw TypeError) /\
  (evenAttributes n ->
   (exists s, getSelector n = Ok s) /\
   forall baseURL d child,
     parentNode child = Some n ->
     exists r, findStyleRuleSource baseURL d child = Ok r) /\
  (forall baseURL d,
     parentNode n = None ->
     exists r, findStyleRuleSource baseURL d n = Ok r).
Proof.
  split; [|split].
  - intros H. split; [|split].
    + by apply getAttributeMapLoop_odd.
    + by apply getSelector_odd.
    + intros baseURL d child Hd Hp.
      by eapply findStyleRuleSource_nodeStyle_odd.
  - intros H. split; [by apply getSelector_even|].
    intros baseURL d child Hp. apply findStyleRuleSource_total.
    unfold parentEvenAttributes. by rewrite Hp.
  - intros baseURL d Hp. apply findStyleRuleSource_total.
    unfold parentEvenAttributes. by rewrite Hp.
Qed.

(** ** The source locator *)

(** The last three branches, for a rule that is neither a node style nor a
    user-agent rule. *)
Lemma findStyleRuleSource_regular (baseURL : string) (d : CssRule) (n : Node) :
  type d = Regular ->
  isUserAgentRule d = false ->
  findStyleRuleSource baseURL (Some d) n
  = match stylesheet d, range d with
    | Some sheet, Some r =>
        if JS.truthy (Stylesheet.sourceURL sheet) then
          let offset :=
            Stylesheet.isInline sheet && negb (Stylesheet.hasSourceURL sheet) in
          Ok {| source :=
                  source_location (Stylesheet.sourceURL sheet)
                    (if Stylesheet.hasSourceURL sheet then comment else network)
                    (if offset
                     then Range.startLine r + Stylesheet.startLine sheet
                     else Range.startLine r)
                    (if offset && (Range.startLine r =? 0)
                     then Range.startColumn r + Stylesheet.startColumn sheet
                     else Range.startColumn r);
                selector := selString (selectorOfRule d) |}
        else Ok {| source := code "dynamic";
                   selector := selString (selectorOfRule d) |}
    | Some sheet, None =>
        if JS.truthy (Stylesheet.sourceURL sheet)
        then Ok {| source := code "Unknown";
                   selector := selString (selectorOfRule d) |}
        else Ok {| source := code "dynamic";
                   selector := selString (selectorOfRule d) |}
    | None, _ =>
        Ok {| source := code "Unknown";
              selector := selString (selectorOfRule d) |}
    end.
Proof.
  intros Ht Hua. unfold findStyleRuleSource, isUserAgentRule in *.
  rewrite Ht. simpl. rewrite Hua. fold (selectorOfRule d).
  destruct (stylesheet d) as [sheet|]; [|done].
  destruct (JS.truthy (Stylesheet.sourceURL sheet)); simpl;
    destruct (range d) as [r|]; try done.
  by destruct (Stylesheet.hasSourceURL sheet), (Stylesheet.isInline sheet).
Qed.

(** C4.  For a located rule (type Regular, not of user-agent origin, with a
    range, in a style sheet that has a URL) the resolved location is the
    range's start, moved by the position of the style sheet only when the
    sheet is inline and its URL is not from a sourceURL comment: then the
    sheet's start line is added to the line, and the sheet's start column
    is added to the column only when the range starts at line 0.  With
    [hasSourceURL] no offset is applied. *)
Theorem inline_stylesheet_location_offset (baseURL : string) (d : CssRule)
  (n : Node) (sheet : Stylesheet.t) (r : Range.t) :
  type d = Regular ->
  isUserAgentRule d = false ->
  stylesheet d = Some sheet ->
  range d = Some r ->
  JS.truthy (Stylesheet.sourceURL sheet) = true ->
  exists line column,
    findStyleRuleSource baseURL (Some d) n
    = Ok {| source :=
              source_location (Stylesheet.sourceURL sheet)
                (if Stylesheet.hasSourceURL sheet then comment else network)
                line column;
            selector := selString (selectorOfRule d) |} /\
    (Stylesheet.isInline sheet = true ->
     Stylesheet.hasSourceURL sheet = false ->
     line = Range.startLine r + Stylesheet.startLine sheet /\
     (Range.startLine r = 0 ->
      column = Range.startColumn r + Stylesheet.startColumn sheet) /\
     (Range.startLine r <> 0 -> column = Range.startColumn r)) /\
    (Stylesheet.hasSourceURL sheet = true ->
     line = Range.startLine r /\ column = Range.startColumn r) /\
    (Stylesheet.isInline sheet = false ->
     line = Range.startLine r /\ column = Range.startColumn r).
Proof.
  intros Ht Hua Hs Hr Hu.
  rewrite (findStyleRuleSource_regular baseURL d n Ht Hua), Hs, Hr, Hu.
  eexists _, _. split; [reflexivity|].
  split; [|split].
  - intros -> ->. simpl. split; [done|]. split.
    + intros ->. done.
    + intros H. apply Z.eqb_neq in H. by rewrite H.
  - intros ->. by rewrite andb_false_r.
  - intros ->. done.
Qed.

(** C10, as amended.  A rule of type Regular that has no style sheet
    object and is not of user-agent origin resolves to the source
    [Unknown], whether or not it has a range, with the joined selectors of
    its parent rule (the empty string without one). *)
Theorem regular_without_stylesheet_unknown (baseURL : string) (d : CssRule)
  (n : Node) :
  type d = Regular ->
  stylesheet d = None ->
  isUserAgentRule d = false ->
  findStyleRuleSource baseURL (Some d) n
  = Ok {| source := code "Unknown";
          selector := selString (selectorOfRule d) |}.
Proof.
  intros Ht Hs Hua.
  by rewrite (findStyleRuleSource_regular baseURL d n Ht Hua), Hs.
Qed.

(** ** The audit *)

(** On integer text lengths the threshold on the rational percentage is
    the integer comparison 60 * total <= 100 * (total - failing). *)
Lemma passing_threshold_integers (total failing : Z) :
  0 < total ->
  ((MINIMAL_PERCENTAGE_OF_LEGIBLE_TEXT
    <= inject_Z (total - failing) / inject_Z total * 100)%Q
   <-> 60 * total <= 100 * (total - failing)).
Proof.
  intros Ht. destruct total as [|p|p]; try lia.
  remember (Z.pos p - failing) as x eqn:Ex. clear Ex.
  unfold MINIMAL_PERCENTAGE_OF_LEGIBLE_TEXT.
  unfold Qle, Qdiv, Qmult, Qinv, inject_Z. cbn [Qnum Qden].
  rewrite Pos.mul_1_l, Pos.mul_1_r. lia.
Qed.

Section AuditFacts.
Context {MetaElements : Type}.
Variable request : MetaElements -> result ViewportMeta.
Implicit Type artifacts : Artifacts (list FailingNodeData) MetaElements.

Lemma audit_fullAnalysis artifacts :
  fullAnalysis request artifacts ->
  audit request artifacts
  = let a := FontSize artifacts in
    let* tableData :=
      mapM (ruleToItem (finalUrl (URL artifacts)) (totalTextLength a))
        (sortedRules (analyzedFailingNodesData a)) in
    Ok (reportOf a tableData).
Proof.
  intros (Ht & (v & Hv & Ho) & Hn). unfold audit.
  rewrite Ht, Hv. simpl. rewrite Ho. simpl.
  apply Z.eqb_neq in Hn. by rewrite Hn.
Qed.

Lemma Qgeb_le (x y : Q) : Qgeb x y = true <-> (y <= x)%Q.
Proof. apply Qle_bool_iff. Qed.

Lemma Qgtb_lt (x y : Q) : Qgtb x y = true <-> (y < x)%Q.
Proof.
  unfold Qgtb. rewrite negb_true_iff. split.
  - intros H. apply Qnot_le_lt. intros Hle.
    apply Qle_bool_iff in Hle. congruence.
  - intros H. destruct (Qle_bool x y) eqn:E; [|done].
    apply Qle_bool_iff in E. exfalso. by eapply Qlt_not_le.
Qed.

(** C2.  The three terminal states that precede the full analysis, in
    order: not tested as a mobile device, the audit returns score 1,
    [notApplicable] and no details, whatever the other artifacts are;
    else, the viewport classified as not optimized for mobile, it returns
    score 0 with the viewport explanation and no details; else, no text
    at all, it returns score 1 and no details. *)
Theorem audit_short_circuits artifacts :
  (TestedAsMobileDevice artifacts = false ->
   exists p, audit request artifacts = Ok p /\
     score p = 1 /\ notApplicable p = Some true /\ details p = None /\
     explanation p = None /\ displayValue p = None) /\
  (forall v,
     TestedAsMobileDevice artifacts = true ->
     request (MetaElementsOf artifacts) = Ok v ->
     isMobileOptimized v = false ->
     exists p, audit request artifacts = Ok p /\
       score p = 0 /\
       explanation p = Some (str_ UIStrings.explanationViewport None) /\
       details p = None /\ notApplicable p = None /\
       displayValue p = None) /\
  (forall v,
     TestedAsMobileDevice artifacts = true ->
     request (MetaElementsOf artifacts) = Ok v ->
     isMobileOptimized v = true ->
     totalTextLength (FontSize artifacts) = 0 ->
     exists p, audit request artifacts = Ok p /\
       score p = 1 /\ details p = None /\ notApplicable p = None /\
       explanation p = None /\ displayValue p = None).
Proof.
  unfold audit. split; [|split].
  - intros ->. simpl. eexists. split; [reflexivity|]. by repeat split.
  - intros v Ht Hv Ho. rewrite Ht, Hv. simpl. rewrite Ho. simpl.
    eexists. split; [reflexivity|]. by repeat split.
  - intros v Ht Hv Ho Hz. rewrite Ht, Hv. simpl. rewrite Ho, Hz. simpl.
    eexists. split; [reflexivity|]. by repeat split.
Qed.
End AuditFacts.

Section RowsOfFragments.
Implicit Types (r f : FailingNodeData) (l rows : list FailingNodeData).

Lemma rowOf_In r rows :
  List.NoDup (map artifactIdOf rows) -> In r rows ->
  rowOf (artifactIdOf r) rows = Some r.
Proof.
  unfold rowOf. induction rows as [|r0 rows IH]; simpl; [done|].
  intros Hnd Hin. apply List.NoDup_cons_iff in Hnd as [Hn Hnd].
  destruct (hasArtifactId (artifactIdOf r) r0) eqn:E.
  - apply hasArtifactId_true in E. destruct Hin as [->|Hin]; [done|].
    exfalso. apply Hn. rewrite E. by apply in_map.
  - apply hasArtifactId_false in E. destruct Hin as [->|Hin]; [done|].
    by apply IH.
Qed.

(** Every row is a fragment of the input, with the text length of all
    the fragments that share its id. *)
Lemma row_is_fragment r l :
  In r (getUniqueFailingRules l) ->
  exists f, In f l /\
    r = withTextLength f (textLengthOf (artifactIdOf f) l).
Proof.
  intros Hin.
  pose proof (rowOf_In r (getUniqueFailingRules l)) as H.
  rewrite ids_getUniqueFailingRules in H.
  specialize (H (NoDup_firstSeen _) Hin).
  rewrite rowOf_getUniqueFailingRules in H.
  destruct (List.find _ l) as [f|] eqn:Ef; [|done].
  simpl in H. injection H as <-.
  apply find_some in Ef as [Hf Hk]. apply hasArtifactId_true in Hk.
  exists f. split; [done|]. by rewrite Hk.
Qed.

Lemma sortedRules_total (pageUrl : string) (total : Z) l :
  Forall (fun f => parentEvenAttributes (node f)) l ->
  exists items, mapM (ruleToItem pageUrl total) (sortedRules l) = Ok items.
Proof.
  intros Hl. apply mapM_total. apply List.Forall_forall. intros r Hr.
  unfold sortedRules in Hr.
  apply (Permutation_in _ (sort_perm _ _)) in Hr.
  apply row_is_fragment in Hr as (f & Hf & ->).
  rewrite List.Forall_forall in Hl. specialize (Hl f Hf).
  unfold ruleToItem. simpl.
  destruct (findStyleRuleSource_total pageUrl (cssRule f) (node f) Hl)
    as [o ->].
  simpl. by eexists.
Qed.
End RowsOfFragments.

Section AuditReport.
Context {MetaElements : Type}.
Variable request : MetaElements -> result ViewportMeta.
Implicit Type artifacts : Artifacts (list FailingNodeData) MetaElements.

(** C1.  In the full analysis the score an audit returns is 1 exactly
    when the percentage of passing text,
    (totalTextLength - failingTextLength) / totalTextLength * 100, is at
    least [MINIMAL_PERCENTAGE_OF_LEGIBLE_TEXT] = 60, and 0 otherwise; the
    display value carries that percentage divided by 100.  The audit does
    return when the parent of every fragment's node pairs its attribute
    names with values. *)
Theorem audit_score_threshold artifacts :
  fullAnalysis request artifacts ->
  let a := FontSize artifacts in
  let passingPercentage :=
    (inject_Z (totalTextLength a - failingTextLength a)
       / inject_Z (totalTextLength a) * 100)%Q in
  (forall p,
     audit request artifacts = Ok p ->
     (score p = 1 <->
      (MINIMAL_PERCENTAGE_OF_LEGIBLE_TEXT <= passingPercentage)%Q) /\
     (score p = 0 <->
      ~ (MINIMAL_PERCENTAGE_OF_LEGIBLE_TEXT <= passingPercentage)%Q) /\
     displayValue p
     = Some (str_ UIStrings.displayValue
               (Some (passingPercentage / 100)%Q))) /\
  MINIMAL_PERCENTAGE_OF_LEGIBLE_TEXT = 60%Q /\
  (Forall (fun f => parentEvenAttributes (node f))
     (analyzedFailingNodesData a) ->
   exists p, audit request artifacts = Ok p).
Proof.
  intros Hf a pct. rewrite (audit_fullAnalysis request artifacts Hf).
  fold a. split; [|split; [done|]].
  - intros p Hp. cbv zeta in Hp.
    destruct (mapM _ _) as [items|e]; [|done].
    simpl in Hp. injection Hp as <-. unfold reportOf. simpl.
    fold pct. change (percentageOfPassingText a) with pct.
    destruct (Qgeb pct MINIMAL_PERCENTAGE_OF_LEGIBLE_TEXT) eqn:E; simpl.
    + apply Qgeb_le in E. split; [done|]. split; [|done].
      split; [done|]. intros H. by destruct H.
    + assert (~ (MINIMAL_PERCENTAGE_OF_LEGIBLE_TEXT <= pct)%Q) as Hn.
      { intros H. apply Qgeb_le in H. congruence. }
      split; [|split; [done|done]]. split; [done|]. intros H. by destruct Hn.
  - intros Hl. cbv zeta.
    destruct (sortedRules_total (finalUrl (URL artifacts))
                (totalTextLength a) _ Hl) as [items ->].
    simpl. by eexists.
Qed.
End AuditReport.



Section AuditRows.
Context {MetaElements : Type}.
Variable request : MetaElements -> result ViewportMeta.
Implicit Type artifacts : Artifacts (list FailingNodeData) MetaElements.

End AuditRows.

(** ** Artifact ids *)

Section ArtifactIds.

Lemma numToString_inj (a b : Z) :
  JS.numToString a = JS.numToString b -> a = b.
Proof.
  unfold JS.numToString. intros H.
  assert (forall z, NilZero.int_of_string
                      (NilZero.string_of_int (Z.to_int z))
                    = Some (Z.to_int z)) as Hz.
  { intros z. apply NilZero.isi; destruct z; simpl; try discriminate;
      intros [= E]; by apply Unsigned.to_uint_nonnil in E. }
  pose proof (Hz a) as Ha. rewrite H, Hz in Ha. injection Ha as Ha.
  by rewrite <- (of_to a), <- (of_to b), Ha.
Qed.

Lemma occurs_uint (c : ascii) (d : uint) :
  outsideNumber c = true ->
  occurs c (NilEmpty.string_of_uint d) = false.
Proof.
  intros Hc. induction d; simpl; try done;
    rewrite IHd, orb_false_r; apply Ascii.eqb_neq; intros ->;
    vm_compute in Hc; discriminate Hc.
Qed.

Lemma occurs_numToString (c : ascii) (z : Z) :
  outsideNumber c = true ->
  occurs c (JS.numToString z) = false.
Proof.
  intros Hc.
  assert (occurs c "0" = false) as H0.
  { simpl. rewrite orb_false_r. apply Ascii.eqb_neq. intros ->.
    vm_compute in Hc. discriminate Hc. }
  assert (forall d, occurs c (NilZero.string_of_uint d) = false) as Hu.
  { intros d. unfold NilZero.string_of_uint.
    destruct d; try (by apply occurs_uint). exact H0. }
  unfold JS.numToString, NilZero.string_of_int.
  destruct (Z.to_int z); [apply Hu|].
  simpl. rewrite Hu, orb_false_r. apply Ascii.eqb_neq. intros ->.
  vm_compute in Hc. discriminate Hc.
Qed.

Lemma occurs_append (c : ascii) (s t : string) :
  occurs c (s +:+ t) = occurs c s || occurs c t.
Proof.
  induction s as [|c' s IH]; simpl; [done|]. by rewrite IH, orb_assoc.
Qed.

(** A string is cut in one way at the last occurrence of a character. *)
Lemma append_separator_inj (c : ascii) (s1 s2 t1 t2 : string) :
  occurs c t1 = false -> occurs c t2 = false ->
  s1 +:+ String c t1 = s2 +:+ String c t2 -> s1 = s2 /\ t1 = t2.
Proof.
  intros H1 H2. revert s2.
  induction s1 as [|a s1 IH]; intros [|b s2]; simpl.
  - by intros [= ->].
  - intros [= <- ->]. rewrite occurs_append in H1. simpl in H1.
    rewrite Ascii.eqb_refl in H1. simpl in H1.
    by rewrite orb_true_r in H1.
  - intros [= -> <-]. rewrite occurs_append in H2. simpl in H2.
    rewrite Ascii.eqb_refl in H2. simpl in H2.
    by rewrite orb_true_r in H2.
  - intros [= -> H]. destruct (IH _ H) as [-> ->]. done.
Qed.

Lemma regular_id_inj (s1 s2 : string) (l1 c1 l2 c2 : Z) :
  s1 +:+ "@" +:+ JS.numToString l1 +:+ ":" +:+ JS.numToString c1
  = s2 +:+ "@" +:+ JS.numToString l2 +:+ ":" +:+ JS.numToString c2 ->
  s1 = s2 /\ l1 = l2 /\ c1 = c2.
Proof.
  intros H.
  apply (append_separator_inj "@") in H as [-> H].
  - apply (append_separator_inj ":") in H as [Hl Hc].
    + apply numToString_inj in Hl, Hc. done.
    + by apply occurs_numToString.
    + by apply occurs_numToString.
  - rewrite !occurs_append. cbn.
    by rewrite !occurs_numToString by reflexivity.
  - rewrite !occurs_append. cbn.
    by rewrite !occurs_numToString by reflexivity.
Qed.

Lemma node_id_no_at (n : Z) : occurs "@" ("node_" +:+ JS.numToString n) = false.
Proof. simpl. by apply occurs_numToString. Qed.

Lemma regular_id_at (s t : string) : occurs "@" (s +:+ "@" +:+ t) = true.
Proof.
  rewrite occurs_append. simpl. by rewrite orb_true_r.
Qed.

Lemma artifactIdOf_regular f d :
  regularRule f = Some d ->
  artifactIdOf f
  = styleSheetId d +:+ "@" +:+ JS.numToString (fst (startOf d)) +:+ ":" +:+
      JS.numToString (snd (startOf d)).
Proof.
  unfold regularRule, artifactIdOf, getFontArtifactId, startOf.
  destruct (cssRule f) as [d'|]; [|done].
  destruct (RuleType_eqb (type d') Regular); [|done].
  intros [= ->]. by destruct (range d).
Qed.

Lemma artifactIdOf_node f :
  regularRule f = None ->
  artifactIdOf f = "node_" +:+ JS.numToString (nodeId (node f)).
Proof.
  unfold regularRule, artifactIdOf, getFontArtifactId.
  destruct (cssRule f) as [d'|]; [|done].
  by destruct (RuleType_eqb (type d') Regular).
Qed.
End ArtifactIds.

Section Collapse.
Implicit Types (f g r : FailingNodeData) (l : list FailingNodeData).

Lemma rowOf_fragment f l :
  In f l ->
  exists r, rowOf (artifactIdOf f) (getUniqueFailingRules l) = Some r /\
    In r (getUniqueFailingRules l) /\
    artifactIdOf r = artifactIdOf f /\
    textLength r = textLengthOf (artifactIdOf f) l.
Proof.
  intros Hin.
  pose proof (rowOf_getUniqueFailingRules (artifactIdOf f) l) as H.
  destruct (List.find (hasArtifactId (artifactIdOf f)) l) as [f0|] eqn:E.
  - simpl in H. eexists. split; [exact H|].
    apply find_some in E as [_ E]. apply hasArtifactId_true in E.
    apply find_some in H as [Hr _]. by repeat split.
  - exfalso. eapply find_none in E; [|exact Hin].
    apply hasArtifactId_false in E. done.
Qed.

(** C3, as amended.  The rows of the aggregator are the distinct ids of
    the fragments, in first-seen order, so two fragments are counted in
    the same row exactly when their ids are equal, and that row carries
    the text length of all the fragments with that id.  The id of a
    fragment whose rule is of type Regular is the style sheet id, "@",
    the start line, ":" and the start column of the rule (0 and 0
    without a range); the id of any other fragment is "node_" and the
    node id.  Hence two fragments with Regular rules collapse exactly
    when the rules have the same style sheet id and the same start
    (a missing range counting as 0:0); two fragments without a Regular
    rule collapse exactly when their nodes have the same id; a fragment
    with a Regular rule and one without never collapse. *)
Theorem fragments_collapse_iff_same_id l :
  let rows := getUniqueFailingRules l in
  map artifactIdOf rows = firstSeen (map artifactIdOf l) /\
  List.NoDup (map artifactIdOf rows) /\
  (forall f g, In f l -> In g l ->
     (rowOf (artifactIdOf f) rows = rowOf (artifactIdOf g) rows
      <-> artifactIdOf f = artifactIdOf g)) /\
  (forall f, In f l ->
     exists r, rowOf (artifactIdOf f) rows = Some r /\ In r rows /\
       textLength r = textLengthOf (artifactIdOf f) l) /\
  (forall f g d e, regularRule f = Some d -> regularRule g = Some e ->
     artifactIdOf f
     = styleSheetId d +:+ "@" +:+ JS.numToString (fst (startOf d)) +:+ ":"
         +:+ JS.numToString (snd (startOf d)) /\
     (artifactIdOf f = artifactIdOf g
      <-> styleSheetId d = styleSheetId e /\ startOf d = startOf e)) /\
  (forall f g, regularRule f = None -> regularRule g = None ->
     artifactIdOf f = "node_" +:+ JS.numToString (nodeId (node f)) /\
     (artifactIdOf f = artifactIdOf g
      <-> nodeId (node f) = nodeId (node g))) /\
  (forall f g d, regularRule f = Some d -> regularRule g = None ->
     artifactIdOf f <> artifactIdOf g).
Proof.
  intros rows. subst rows.
  split; [apply ids_getUniqueFailingRules|].
  split; [rewrite ids_getUniqueFailingRules; apply NoDup_firstSeen|].
  split; [|split; [|split; [|split]]].
  - intros f g Hf Hg. split; [|by intros ->].
    destruct (rowOf_fragment f l Hf) as (r & -> & _ & Hr & _).
    destruct (rowOf_fragment g l Hg) as (r' & -> & _ & Hr' & _).
    intros [= ->]. congruence.
  - intros f Hf.
    destruct (rowOf_fragment f l Hf) as (r & Hr & Hin & _ & Ht).
    by exists r.
  - intros f g d e Hd He.
    rewrite (artifactIdOf_regular f d Hd), (artifactIdOf_regular g e He).
    split; [done|]. split.
    + intros H. apply regular_id_inj in H as (Hs & Hl & Hc).
      split; [done|]. destruct (startOf d), (startOf e). simpl in *.
      congruence.
    + intros [-> ->]. done.
  - intros f g Hf Hg.
    rewrite (artifactIdOf_node f Hf), (artifactIdOf_node g Hg).
    split; [done|]. split.
    + intros [= H]. by apply numToString_inj.
    + by intros ->.
  - intros f g d Hd Hg.
    rewrite (artifactIdOf_regular f d Hd), (artifactIdOf_node g Hg).
    intros H. pose proof (node_id_no_at (nodeId (node g))) as Hn.
    rewrite <- H in Hn. by rewrite regular_id_at in Hn.
Qed.

(** C6, as amended.  The rows of the aggregator carry together the text
    length of the fragments they were built from; so when the fragments
    carry the whole failing text length, the rows and the passing text
    add up to the total text length. *)
Theorem aggregated_text_length_sum (a : FontSizeArtifact (list FailingNodeData)) :
  sumTextLength (getUniqueFailingRules (analyzedFailingNodesData a))
  = sumTextLength (analyzedFailingNodesData a) /\
  (sumTextLength (analyzedFailingNodesData a) = failingTextLength a ->
   sumTextLength (getUniqueFailingRules (analyzedFailingNodesData a))
     + (totalTextLength a - failingTextLength a)
   = totalTextLength a).
Proof.
  rewrite sumTextLength_getUniqueFailingRules. split; [done|]. lia.
Qed.

Lemma textLengthOf_perm k l l' :
  Permutation l l' -> textLengthOf k l = textLengthOf k l'.
Proof.
  unfold textLengthOf.
  induction 1 as [|f l l' Hp IH|f g l|l1 l2 l3 H1 IH1 H2 IH2]; simpl.
  - done.
  - destruct (hasArtifactId k f); simpl; by rewrite IH.
  - destruct (hasArtifactId k f), (hasArtifactId k g); simpl; lia.
  - congruence.
Qed.

Lemma find_None_perm {A : Type} (p : A -> bool) (xs ys : list A) :
  Permutation xs ys -> List.find p xs = None -> List.find p ys = None.
Proof.
  intros Hp Hx. destruct (List.find p ys) as [y|] eqn:E; [|done].
  apply find_some in E as [Hy Hpy].
  symmetry in Hp. apply (Permutation_in _ Hp) in Hy.
  eapply find_none in Hx; [|exact Hy]. congruence.
Qed.

(** C7.  The text length of a row does not depend on the order of the
    fragments: for a permutation of the input every id has a row in
    both outputs or in neither, with the same text length.  The node,
    the rule and the font size of a row are those of the first fragment
    of its id, and so can change with the order of the input. *)
Theorem aggregation_totals_order_independent :
  (forall l l',
     Permutation l l' ->
     forall k,
       option_map textLength (rowOf k (getUniqueFailingRules l))
       = option_map textLength (rowOf k (getUniqueFailingRules l'))) /\
  (forall l k r,
     rowOf k (getUniqueFailingRules l) = Some r ->
     textLength r = textLengthOf k l /\
     exists f, List.find (hasArtifactId k) l = Some f /\
       node r = node f /\ cssRule r = cssRule f /\
       fontSize r = fontSize f) /\
  (exists l l' k r r',
     Permutation l l' /\
     rowOf k (getUniqueFailingRules l) = Some r /\
     rowOf k (getUniqueFailingRules l') = Some r' /\
     fontSize r <> fontSize r').
Proof.
  split; [|split].
  - intros l l' Hp k. rewrite !rowOf_getUniqueFailingRules.
    rewrite (textLengthOf_perm k l l' Hp).
    destruct (List.find _ l) as [f|] eqn:E.
    + destruct (List.find _ l') as [f'|] eqn:E'; [done|].
      symmetry in Hp. apply (find_None_perm _ _ _ Hp) in E'. congruence.
    + by rewrite (find_None_perm _ _ _ Hp E).
  - intros l k r. rewrite rowOf_getUniqueFailingRules.
    destruct (List.find _ l) as [f|]; [|done].
    simpl. intros [= <-]. split; [done|]. by exists f.
  - exists [Examples.small; Examples.smaller],
      [Examples.smaller; Examples.small], "s1@0:0".
    eexists _, _. split; [apply perm_swap|].
    split; [reflexivity|]. split; [reflexivity|]. done.
Qed.
End Collapse.

(** ** The store: what the audit writes *)

Module StoreFacts.
Import Store.

Lemma extends_refl (s : store) : extends s s.
Proof. by intros l _. Qed.

Lemma values_set_Forall {V : Type} (P : V -> Prop) (k : string) (v : V)
  (m : JS.Map V) :
  P v -> Forall P (JS.values m) -> Forall P (JS.values (JS.set k v m)).
Proof.
  intros Hv. induction m as [|[k' v'] m IH]; simpl; intros H.
  - by repeat constructor.
  - apply List.Forall_cons_iff in H as [H1 H2].
    destruct (String.eqb k k'); simpl; constructor; auto.
Qed.

Lemma get_In_values {V : Type} (k : string) (v : V) (m : JS.Map V) :
  JS.get k m = Some v -> In v (JS.values m).
Proof.
  induction m as [|[k' v'] m IH]; simpl; [done|].
  destruct (String.eqb k k'); [intros [= ->]; by left | auto].
Qed.

Section Frame.
Variable s0 : store.

Lemma frame_alloc (s : store) (c : cell) :
  frame s0 s -> frame s0 (s ++ [c]).
Proof.
  intros [Hl He]. split.
  - rewrite length_app. lia.
  - intros l Hl0. rewrite lookup_app_l by lia. by apply He.
Qed.

Lemma frame_write (s : store) (l : loc) (c : cell) :
  (length s0 <= l)%nat -> frame s0 s -> frame s0 (<[l := c]> s).
Proof.
  intros Hl [Hlen He]. split.
  - by rewrite length_insert.
  - intros l' Hl'. rewrite list_lookup_insert_ne by lia. by apply He.
Qed.

Lemma collectFailingRule_frame (m : JS.Map loc) (l : loc) (s : store) :
  frameInv s0 s m ->
  frame s0 (snd (collectFailingRule m l s)) /\
  forall m', fst (collectFailingRule m l s) = Ok m' ->
             frameInv s0 (snd (collectFailingRule m l s)) m'.
Proof.
  intros (Hlen & He & Hm).
  unfold collectFailingRule, bindM, readRule, alloc, write, ret.
  destruct (s !! l) as [[f|a]|]; simpl; try (split; [by split | done]).
  destruct (JS.get _ m) as [failingRule|] eqn:Eg; simpl.
  - destruct (s !! failingRule) as [[r|a]|]; simpl;
      try (split; [by split | done]).
    apply get_In_values in Eg.
    assert (length s0 <= failingRule)%nat as Hf.
    { rewrite List.Forall_forall in Hm. by apply Hm. }
    assert (frame s0 (<[failingRule:=Rule (addTextLength r (textLength f))]> s))
      as Hfr by (by apply frame_write).
    split; [done|]. intros m' [= <-]. destruct Hfr. by repeat split.
  - assert (frame s0 (s ++ [Rule {| node := node f; cssRule := cssRule f;
                                 fontSize := fontSize f;
                                 textLength := textLength f |}]))
      as Hfr by (by apply frame_alloc).
    split; [done|]. intros m' [= <-]. destruct Hfr.
    repeat split; try done. by apply values_set_Forall.
Qed.

Lemma forEach_collect_frame (a : list loc) (m : JS.Map loc) (s : store) :
  frameInv s0 s m ->
  frame s0 (snd (forEach collectFailingRule a m s)) /\
  forall m', fst (forEach collectFailingRule a m s) = Ok m' ->
             frameInv s0 (snd (forEach collectFailingRule a m s)) m'.
Proof.
  revert m s. induction a as [|l a IH]; intros m s Hinv; simpl.
  - unfold ret. simpl. destruct Hinv as (? & ? & ?).
    split; [by split|]. by intros m' [= <-].
  - unfold bindM.
    destruct (collectFailingRule_frame m l s Hinv) as [Hfr Hok].
    destruct (collectFailingRule m l s) as [[m1|e] s1]; simpl in *.
    + apply IH. by apply Hok.
    + split; [done | done].
Qed.

Lemma getUniqueFailingRules_frame (arr : loc) :
  frame s0 (snd (getUniqueFailingRules arr s0)) /\
  forall r, fst (getUniqueFailingRules arr s0) = Ok r ->
            (length s0 <= r)%nat.
Proof.
  unfold getUniqueFailingRules, bindM, readArray, alloc.
  assert (frame s0 s0) as H0 by (split; [lia | apply extends_refl]).
  destruct (s0 !! arr) as [[f|a]|]; simpl; try (split; [done | done]).
  assert (frameInv s0 s0 []) as Hinv.
  { destruct H0. by repeat split. }
  destruct (forEach_collect_frame a [] s0 Hinv) as [Hfr Hok].
  destruct (forEach collectFailingRule a [] s0) as [[m|e] s1]; simpl in *.
  - split; [by apply frame_alloc|]. intros r [= <-]. by destruct Hfr.
  - by split.
Qed.

Lemma sortByTextLength_frame (arr : loc) (s : store) :
  (length s0 <= arr)%nat -> frame s0 s ->
  frame s0 (snd (sortByTextLength arr s)).
Proof.
  intros Ha Hfr. unfold sortByTextLength.
  destruct (s !! arr) as [[f|a]|]; simpl; try done.
  by apply frame_write.
Qed.
End Frame.

Lemma mapArray_reads {B : Type} (f : loc -> M B) (a : list loc) (s : store) :
  (forall l s, snd (f l s) = s) -> snd (mapArray f a s) = s.
Proof.
  intros Hf. induction a as [|l a IH]; simpl; [done|].
  unfold bindM. pose proof (Hf l s) as Hl.
  destruct (f l s) as [[y|e] s1]; simpl in *; subst s1; [|done].
  destruct (mapArray f a s) as [[ys|e] s2]; simpl in *; by subst s2.
Qed.

Lemma readRule_reads (l : loc) (s : store) : snd (readRule l s) = s.
Proof. unfold readRule. by destruct (s !! l) as [[?|?]|]. Qed.

Lemma readArray_reads (l : loc) (s : store) : snd (readArray l s) = s.
Proof. unfold readArray. by destruct (s !! l) as [[?|?]|]. Qed.

Section AuditFrame.
Context {MetaElements : Type}.
Variable request : MetaElements -> result ViewportMeta.

Lemma audit_frame (artifacts : Artifacts loc MetaElements) (s : store) :
  frame s (snd (audit request artifacts s)).
Proof.
  assert (frame s s) as H0 by (split; [lia | apply extends_refl]).
  unfold audit.
  destruct (negb (TestedAsMobileDevice artifacts)); [done|].
  unfold bindM at 1. unfold lift at 1.
  destruct (request (MetaElementsOf artifacts)) as [v|e]; [|done].
  destruct (negb (isMobileOptimized v)); [done|].
  destruct (totalTextLength (FontSize artifacts) =? 0); [done|].
  unfold bindM at 1.
  destruct (getUniqueFailingRules_frame s
              (analyzedFailingNodesData (FontSize artifacts)))
    as [Hfr Hok].
  destruct (getUniqueFailingRules _ s) as [[arr|e] s1]; simpl in *;
    [|done].
  specialize (Hok arr eq_refl).
  unfold bindM at 1.
  pose proof (sortByTextLength_frame s arr s1 Hok Hfr) as Hs.
  destruct (sortByTextLength arr s1) as [[sorted|e] s2]; simpl in *;
    [|done].
  unfold bindM at 1. pose proof (readArray_reads sorted s2) as Hr.
  destruct (readArray sorted s2) as [[rules|e] s3]; simpl in *; subst s3;
    [|done].
  unfold bindM at 1.
  match goal with
  | |- context [mapArray ?f rules s2] =>
      pose proof (mapArray_reads f rules s2) as Hm
  end.
  destruct (mapArray _ rules s2) as [[items|e] s4]; simpl in *.
  - rewrite Hm; [done|]. intros l s'. unfold bindM, lift.
    pose proof (readRule_reads l s') as Hl.
    destruct (readRule l s') as [[r|e'] s5]; simpl in *; by subst s5.
  - rewrite Hm; [done|]. intros l s'. unfold bindM, lift.
    pose proof (readRule_reads l s') as Hl.
    destruct (readRule l s') as [[r|e'] s5]; simpl in *; by subst s5.
Qed.
End AuditFrame.
End StoreFacts.

(** ** The store: the audit computes what the audit on values computes *)

Module StoreRefinement.
Import StoreFacts.

Lemma rulesAt_holds (s : list Store.cell) (a : list nat)
  (data : list FailingNodeData) :
  Store.rulesAt s a = Some data <-> holds s a data.
Proof.
  revert data. induction a as [|l a IH]; intros data; simpl.
  - split; [intros [= <-]; constructor | by inversion 1].
  - destruct (s !! l) as [[r|?]|] eqn:E.
    + destruct (Store.rulesAt s a) as [rs|] eqn:Er.
      * split.
        -- intros [= <-]. constructor; [done|]. by apply IH.
        -- inversion 1 as [|? v ? vs Hv Hvs]; subst.
           apply IH in Hvs. congruence.
      * split; [done|]. inversion 1 as [|? v ? vs Hv Hvs]; subst.
        apply IH in Hvs. congruence.
    + split; [done|]. inversion 1; congruence.
    + split; [done|]. inversion 1; congruence.
Qed.

Lemma holds_extends (s0 s : list Store.cell) (ls : list nat)
  (vs : list FailingNodeData) :
  extends s0 s -> holds s0 ls vs -> holds s ls vs.
Proof.
  intros He H. induction H as [|l v ls vs Hl H IH]; constructor; [|done].
  rewrite He; [done|]. by eapply lookup_lt_Some.
Qed.

Lemma entries_get (s : list Store.cell) (k : string) (ml : JS.Map nat)
  (mp : JS.Map FailingNodeData) :
  Forall2 (entry s) ml mp ->
  match JS.get k ml with
  | Some l => exists v, JS.get k mp = Some v /\ s !! l = Some (Store.Rule v)
  | None => JS.get k mp = None
  end.
Proof.
  induction 1 as [|[k1 l] [k2 v] ml mp [Hk Hl] H IH]; simpl; [done|].
  simpl in Hk, Hl. subst k2. destruct (String.eqb k k1); [|done].
  by exists v.
Qed.

Lemma entries_values (s : list Store.cell) (ml : JS.Map nat)
  (mp : JS.Map FailingNodeData) :
  Forall2 (entry s) ml mp -> holds s (JS.values ml) (JS.values mp).
Proof.
  induction 1 as [|[k1 l] [k2 v] ml mp [Hk Hl] H IH]; simpl;
    constructor; done.
Qed.

Lemma entries_other (s s' : list Store.cell) (ml : JS.Map nat)
  (mp : JS.Map FailingNodeData) :
  (forall l, In l (JS.values ml) -> s' !! l = s !! l) ->
  Forall2 (entry s) ml mp -> Forall2 (entry s') ml mp.
Proof.
  intros Hs H. induction H as [|[k1 l] [k2 v] ml mp [Hk Hl] H IH].
  - constructor.
  - constructor.
    + split; [done|]. simpl in *. rewrite Hs; [done | by left].
    + apply IH. intros l' Hl'. apply Hs. by right.
Qed.

(** Writing through the reference found under [k] is [set] on values. *)
Lemma entries_update (s : list Store.cell) (k : string) (l : nat)
  (v' : FailingNodeData) (ml : JS.Map nat) (mp : JS.Map FailingNodeData) :
  Forall2 (entry s) ml mp ->
  List.NoDup (JS.values ml) ->
  JS.get k ml = Some l ->
  Forall2 (entry (<[l := Store.Rule v']> s)) ml (JS.set k v' mp).
Proof.
  induction 1 as [|[k1 l1] [k2 v] ml mp [Hk Hl] H IH]; simpl; [done|].
  simpl in Hk, Hl. subst k2. intros Hnd Hg.
  apply List.NoDup_cons_iff in Hnd as [Hn Hnd].
  destruct (String.eqb k k1) eqn:E.
  - injection Hg as ->. constructor.
    + split; [done|]. simpl. apply list_lookup_insert_eq.
      by eapply lookup_lt_Some.
    + eapply entries_other; [|exact H]. intros l' Hl'.
      apply list_lookup_insert_ne. intros ->. done.
  - constructor.
    + split; [done|]. simpl. rewrite list_lookup_insert_ne; [done|].
      intros ->. apply Hn. by eapply get_In_values.
    + by apply IH.
Qed.

Lemma entries_append (s : list Store.cell) (k : string)
  (v : FailingNodeData) (ml : JS.Map nat) (mp : JS.Map FailingNodeData) :
  Forall2 (entry s) ml mp ->
  JS.get k ml = None ->
  Forall2 (entry (s ++ [Store.Rule v])) (JS.set k (length s) ml)
    (JS.set k v mp).
Proof.
  intros H Hg. pose proof (entries_get s k ml mp H) as Hp.
  rewrite Hg in Hp. rewrite !set_absent by done.
  apply Forall2_app.
  - eapply entries_other; [|exact H]. intros l Hl.
    apply lookup_app_l.
    clear Hg Hp. induction H as [|[k1 l1] [k2 v2] ml mp [Hk Hl1] H IH];
      [done|].
    destruct Hl as [<-|Hl]; [by eapply lookup_lt_Some | by apply IH].
  - constructor; [|constructor]. split; [done|]. simpl.
    by rewrite lookup_app_r, Nat.sub_diag.
Qed.

Section Loop.
Variable s0 : list Store.cell.

Lemma collectFailingRule_sim (ml : JS.Map nat)
  (mp : JS.Map FailingNodeData) (l : nat) (f : FailingNodeData)
  (s : list Store.cell) :
  sim s0 s ml mp -> s0 !! l = Some (Store.Rule f) ->
  exists ml' s',
    Store.collectFailingRule ml l s = (Ok ml', s') /\
    sim s0 s' ml' (collectFailingRule mp f).
Proof.
  intros (Hfr & He & Hnd & Hb) Hl.
  assert (s !! l = Some (Store.Rule f)) as Hl'.
  { destruct Hfr as [_ Hx]. rewrite Hx; [done|].
    by eapply lookup_lt_Some. }
  unfold Store.collectFailingRule, Store.bindM, Store.readRule,
    collectFailingRule.
  rewrite Hl'. pose proof (entries_get s
    (getFontArtifactId (cssRule f) (node f)) ml mp He) as Hg.
  destruct (JS.get _ ml) as [failingRule|] eqn:Eg.
  - destruct Hg as (v & -> & Hv). rewrite Hv.
    unfold Store.write, Store.ret. eexists _, _. split; [reflexivity|].
    assert (length s0 <= failingRule)%nat as Hf.
    { apply get_In_values in Eg. rewrite List.Forall_forall in Hb.
      apply Hb in Eg. lia. }
    split; [by apply frame_write|].
    split; [by apply entries_update|]. split; [done|].
    eapply List.Forall_impl; [|exact Hb]. simpl. intros l0.
    rewrite length_insert. done.
  - rewrite Hg. unfold Store.alloc, Store.ret.
    eexists _, _. split; [reflexivity|].
    split; [by apply frame_alloc|].
    split; [by apply entries_append|].
    rewrite set_absent by done. unfold JS.values.
    rewrite map_app. simpl. fold (JS.values ml). split.
    + eapply Permutation_NoDup; [apply Permutation_cons_append|].
      constructor; [|done]. intros Hx.
      rewrite List.Forall_forall in Hb. apply Hb in Hx. lia.
    + apply List.Forall_app. split.
      * eapply List.Forall_impl; [|exact Hb]. simpl. intros l0.
        rewrite length_app. simpl. lia.
      * constructor; [|constructor]. rewrite length_app. simpl.
        destruct Hfr. lia.
Qed.

Lemma forEach_collect_sim (a : list nat) (data : list FailingNodeData)
  (ml : JS.Map nat) (mp : JS.Map FailingNodeData) (s : list Store.cell) :
  holds s0 a data -> sim s0 s ml mp ->
  exists ml' s',
    Store.forEach Store.collectFailingRule a ml s = (Ok ml', s') /\
    sim s0 s' ml' (fold_left collectFailingRule data mp).
Proof.
  intros H. revert ml mp s.
  induction H as [|l f a data Hl H IH]; intros ml mp s Hs; simpl.
  - by eexists _, _.
  - destruct (collectFailingRule_sim ml mp l f s Hs Hl)
      as (ml1 & s1 & E & Hs1).
    unfold Store.bindM. rewrite E. by apply IH.
Qed.
End Loop.

Lemma holds_other (s s' : list Store.cell) (ls : list nat)
  (vs : list FailingNodeData) :
  (forall l, In l ls -> s' !! l = s !! l) ->
  holds s ls vs -> holds s' ls vs.
Proof.
  intros Hs H. induction H as [|l v ls vs Hl H IH]; constructor.
  - rewrite Hs; [done | by left].
  - apply IH. intros l' Hl'. apply Hs. by right.
Qed.

Lemma holds_In (s : list Store.cell) (ls : list nat)
  (vs : list FailingNodeData) (l : nat) :
  holds s ls vs -> In l ls -> exists v, s !! l = Some (Store.Rule v).
Proof.
  induction 1 as [|l0 v ls vs Hl H IH]; [done|].
  intros [<-|Hin]; [by exists v | by apply IH].
Qed.

Lemma getUniqueFailingRules_sim (s0 : list Store.cell) (arr : nat)
  (a : list nat) (data : list FailingNodeData) :
  s0 !! arr = Some (Store.Array a) -> holds s0 a data ->
  exists s1 ls,
    Store.getUniqueFailingRules arr s0
    = (Ok (length s1), s1 ++ [Store.Array ls]) /\
    frame s0 s1 /\
    holds s1 ls (getUniqueFailingRules data) /\
    Forall (fun l => (l < length s1)%nat) ls.
Proof.
  intros Ha Hd.
  assert (sim s0 s0 [] []) as H0.
  { split; [split; [lia | apply extends_refl]|].
    split; [constructor|]. split; constructor. }
  destruct (forEach_collect_sim s0 a data [] [] s0 Hd H0)
    as (ml & s1 & E & Hfr & He & Hnd & Hb).
  unfold Store.getUniqueFailingRules, Store.bindM, Store.readArray.
  rewrite Ha, E. unfold Store.alloc.
  exists s1, (JS.values ml). split; [done|]. split; [done|].
  split; [by apply entries_values|].
  eapply List.Forall_impl; [|exact Hb]. simpl. intros l. lia.
Qed.

Lemma sortByTextLength_sim (s : list Store.cell) (arr : nat)
  (ls : list nat) (vs : list FailingNodeData) :
  s !! arr = Some (Store.Array ls) -> holds s ls vs ->
  exists ls',
    Store.sortByTextLength arr s
    = (Ok arr, <[arr := Store.Array ls']> s) /\
    holds (<[arr := Store.Array ls']> s) ls'
      (JS.sort byTextLengthDesc vs).
Proof.
  intros Ha Hv. unfold Store.sortByTextLength. rewrite Ha.
  eexists. split; [reflexivity|].
  eapply holds_other with (s := s).
  - intros l Hl. apply list_lookup_insert_ne. intros <-.
    apply (Permutation_in _ (sort_perm _ _)) in Hl.
    destruct (holds_In _ _ _ _ Hv Hl) as [v Hlv]. congruence.
  - apply sort_related; [|exact Hv].
    intros x x' y y' _ _ Hx Hy. unfold Store.textLengthAt, byTextLengthDesc.
    by rewrite Hx, Hy.
Qed.

Lemma mapArray_sim {B : Type} (g : FailingNodeData -> result B)
  (s : list Store.cell) (ls : list nat) (vs : list FailingNodeData) :
  holds s ls vs ->
  Store.mapArray
    (fun l => Store.bindM (Store.readRule l) (fun r => Store.lift (g r)))
    ls s
  = (mapM g vs, s).
Proof.
  induction 1 as [|l v ls vs Hl H IH]; [done|].
  cbn [Store.mapArray mapM]. unfold Store.bindM at 1.
  unfold Store.bindM at 1. unfold Store.readRule at 1. rewrite Hl.
  unfold Store.lift at 1.
  destruct (g v) as [y|e]; [|done].
  unfold Store.bindM at 1. rewrite IH. cbn [bind].
  by destruct (mapM g vs).
Qed.

Section AuditRefinement.
Context {MetaElements : Type}.
Variable request : MetaElements -> result ViewportMeta.

Lemma audit_sim (artifacts : Artifacts nat MetaElements)
  (values : Artifacts (list FailingNodeData) MetaElements)
  (s : list Store.cell) :
  Store.snapshot s artifacts = Some values ->
  fst (Store.audit request artifacts s) = audit request values.
Proof.
  unfold Store.snapshot.
  destruct (s !! analyzedFailingNodesData (FontSize artifacts))
    as [[?|a]|] eqn:Ea; try done.
  destruct (Store.rulesAt s a) as [data|] eqn:Ed; [|done].
  intros [= <-]. apply rulesAt_holds in Ed.
  unfold Store.audit, audit. simpl.
  destruct (negb (TestedAsMobileDevice artifacts)); [done|].
  unfold Store.bindM at 1. unfold Store.lift at 1.
  destruct (request (MetaElementsOf artifacts)) as [v|e]; [|done].
  simpl. destruct (negb (isMobileOptimized v)); [done|].
  destruct (totalTextLength (FontSize artifacts) =? 0); [done|].
  destruct (getUniqueFailingRules_sim s _ a data Ea Ed)
    as (s1 & ls & E1 & Hfr & Hls & Hb).
  unfold Store.bindM at 1. rewrite E1.
  assert ((s1 ++ [Store.Array ls]) !! length s1 = Some (Store.Array ls))
    as Harr by (by rewrite lookup_app_r, Nat.sub_diag).
  assert (holds (s1 ++ [Store.Array ls]) ls (getUniqueFailingRules data))
    as Hls'.
  { eapply holds_other; [|exact Hls]. intros l Hl.
    apply lookup_app_l. rewrite List.Forall_forall in Hb. by apply Hb. }
  destruct (sortByTextLength_sim _ _ ls _ Harr Hls')
    as (ls' & E2 & Hs).
  unfold Store.bindM at 1. rewrite E2.
  unfold Store.bindM at 1. unfold Store.readArray.
  rewrite list_lookup_insert_eq
    by (rewrite length_app; simpl; lia).
  unfold Store.bindM at 1.
  rewrite (mapArray_sim _ _ _ _ Hs).
  by destruct (mapM _ _).
Qed.

Lemma snapshot_extends (artifacts : Artifacts nat MetaElements)
  (values : Artifacts (list FailingNodeData) MetaElements)
  (s s' : list Store.cell) :
  extends s s' ->
  Store.snapshot s artifacts = Some values ->
  Store.snapshot s' artifacts = Some values.
Proof.
  intros He. unfold Store.snapshot.
  destruct (s !! analyzedFailingNodesData (FontSize artifacts))
    as [[?|a]|] eqn:Ea; try done.
  rewrite He, Ea by (by eapply lookup_lt_Some).
  destruct (Store.rulesAt s a) as [data|] eqn:Ed; [|done].
  apply rulesAt_holds in Ed.
  apply (holds_extends s s' a data He), rulesAt_holds in Ed.
  by rewrite Ed.
Qed.

(** C8.  The audit leaves the objects it is given as they are: every
    object of the store before the call, whether a fragment record
    (with its node and rule) or the array of fragments, is the same
    object after it, whether the audit returns or throws; the
    artifacts read as values after the call are those read before it,
    and the product is the one computed from those values.  The
    accumulation of text lengths and the sort take place on objects
    created during the call. *)
Theorem audit_does_not_mutate_inputs
  (artifacts : Artifacts nat MetaElements) (s : list Store.cell) :
  let s' := snd (Store.audit request artifacts s) in
  (forall l c, s !! l = Some c -> s' !! l = Some c) /\
  (length s <= length s')%nat /\
  (forall values,
     Store.snapshot s artifacts = Some values ->
     Store.snapshot s' artifacts = Some values /\
     fst (Store.audit request artifacts s) = audit request values).
Proof.
  intros s'. destruct (audit_frame request artifacts s) as [Hlen He].
  split; [|split; [done|]].
  - intros l c Hl. subst s'. rewrite He; [done|].
    by eapply lookup_lt_Some.
  - intros values Hv. split.
    + by eapply snapshot_extends.
    + by apply audit_sim.
Qed.
End AuditRefinement.
End StoreRefinement.

(** ** The theorems at the sample artifacts *)

Lemma fullAnalysis_sample (data : list FailingNodeData)
  (analyzed failing total : Z) :
  total <> 0 ->
  fullAnalysis Examples.request
    (Examples.artifactsOf data analyzed failing total true).
Proof.
  intros Ht. split; [reflexivity|]. split; [|exact Ht].
  eexists. split; reflexivity.
Qed.

(** Scenario D passes: 70% of the text is legible. *)
Lemma audit_score_threshold_witness :
  exists p, audit Examples.request Examples.scenarioD = Ok p /\ score p = 1.
Proof.
  assert (fullAnalysis Examples.request Examples.scenarioD) as Hf
    by (apply fullAnalysis_sample; discriminate).
  destruct (audit_score_threshold Examples.request Examples.scenarioD Hf)
    as (Hs & _ & Ht).
  destruct Ht as [p Hp]; [repeat constructor|].
  exists p. split; [exact Hp|].
  apply (Hs p Hp). vm_compute. discriminate.
Defined.

(** Scenarios A, B and C. *)
Lemma audit_short_circuits_witness :
  (exists p,
     audit Examples.request
       (Examples.artifactsOf [Examples.small] 300 300 1000 false) = Ok p /\
     score p = 1 /\ notApplicable p = Some true /\ details p = None) /\
  (exists p,
     audit Examples.requestNotOptimized Examples.scenarioD = Ok p /\
     score p = 0 /\
     explanation p = Some (str_ UIStrings.explanationViewport None) /\
     details p = None) /\
  (exists p,
     audit Examples.request (Examples.artifactsOf [Examples.small] 0 0 0 true)
     = Ok p /\
     score p = 1 /\ details p = None).
Proof.
  split; [|split].
  - destruct (audit_short_circuits Examples.request
                (Examples.artifactsOf [Examples.small] 300 300 1000 false))
      as (H & _ & _).
    destruct (H eq_refl) as (p & Hp & H1 & H2 & H3 & _).
    exists p. repeat split; assumption.
  - destruct (audit_short_circuits Examples.requestNotOptimized
                Examples.scenarioD) as (_ & H & _).
    destruct (H _ eq_refl eq_refl eq_refl) as (p & Hp & H1 & H2 & H3 & _).
    exists p. repeat split; assumption.
  - destruct (audit_short_circuits Examples.request
                (Examples.artifactsOf [Examples.small] 0 0 0 true))
      as (_ & _ & H).
    destruct (H _ eq_refl eq_refl eq_refl eq_refl)
      as (p & Hp & H1 & H2 & _).
    exists p. repeat split; assumption.
Defined.

(** C3, as the specification states it, fails on rules that are not of
    type Regular.  Two inline styles of different nodes with the same style
    sheet id and the same range give two rows; two fragments of one node
    whose inline styles differ in the style sheet only give one row. *)
Lemma inline_rules_collapse_by_node :
  let f := Examples.inlineOfPara in
  let g := Examples.inlineOfSpan in
  let h := Examples.inlineOfParaOtherSheet in
  (option_map styleSheetId (cssRule f) = option_map styleSheetId (cssRule g) /\
   option_map range (cssRule f) = option_map range (cssRule g) /\
   length (getUniqueFailingRules [f; g]) = 2%nat) /\
  (option_map styleSheetId (cssRule f) <> option_map styleSheetId (cssRule h) /\
   node f = node h /\ fontSize f = fontSize h /\
   textLength f = textLength h /\
   length (getUniqueFailingRules [f; h]) = 1%nat).
Proof. repeat split. discriminate. Qed.

Lemma fragments_collapse_iff_same_id_witness :
  let l := [Examples.small; Examples.inlineOfPara; Examples.smaller] in
  rowOf (artifactIdOf Examples.small) (getUniqueFailingRules l)
  = rowOf (artifactIdOf Examples.smaller) (getUniqueFailingRules l) /\
  artifactIdOf Examples.small <> artifactIdOf Examples.inlineOfPara.
Proof.
  intros l.
  destruct (fragments_collapse_iff_same_id l)
    as (_ & _ & H & _ & _ & _ & Hmixed).
  split.
  - apply H; [simpl; auto | simpl; auto | reflexivity].
  - eapply Hmixed; reflexivity.
Defined.

(** Scenario F. *)
Lemma inline_stylesheet_location_offset_witness :
  findStyleRuleSource "http://example.com/"
    (Some (Examples.inlineSheetRule 0 3)) Examples.para
  = Ok {| source := source_location "http://example.com/" network 5 5;
          selector := selString ".a, .b" |} /\
  findStyleRuleSource "http://example.com/"
    (Some (Examples.inlineSheetRule 1 3)) Examples.para
  = Ok {| source := source_location "http://example.com/" network 6 3;
          selector := selString ".a, .b" |}.
Proof.
  split.
  - destruct (inline_stylesheet_location_offset "http://example.com/"
                (Examples.inlineSheetRule 0 3) Examples.para
                Examples.inlineSheet (Range.make 0 3)
                eq_refl eq_refl eq_refl eq_refl eq_refl)
      as (line & column & E & Hin & _).
    destruct (Hin eq_refl eq_refl) as (Hl & Hc & _).
    rewrite E, Hl, (Hc eq_refl). reflexivity.
  - destruct (inline_stylesheet_location_offset "http://example.com/"
                (Examples.inlineSheetRule 1 3) Examples.para
                Examples.inlineSheet (Range.make 1 3)
                eq_refl eq_refl eq_refl eq_refl eq_refl)
      as (line & column & E & Hin & _).
    destruct (Hin eq_refl eq_refl) as (Hl & _ & Hc).
    rewrite E, Hl, Hc; [reflexivity | discriminate].
Defined.


(** C6, as the specification states it, fails when some failing text was
    not analyzed: in scenario E the row and the passing text add up to 800
    of the 1000 characters. *)
Lemma unanalyzed_text_breaks_sum :
  let a := FontSize Examples.scenarioE in
  sumTextLength (getUniqueFailingRules (analyzedFailingNodesData a))
    + (totalTextLength a - failingTextLength a) = 800 /\
  totalTextLength a = 1000 /\
  sumTextLength (getUniqueFailingRules (analyzedFailingNodesData a))
    + (totalTextLength a - failingTextLength a) <> totalTextLength a.
Proof. repeat split. discriminate. Qed.

Lemma aggregated_text_length_sum_witness :
  let a := FontSize Examples.scenarioD in
  sumTextLength (getUniqueFailingRules (analyzedFailingNodesData a))
    + (totalTextLength a - failingTextLength a)
  = totalTextLength a.
Proof.
  intros a. apply (proj2 (aggregated_text_length_sum a)). reflexivity.
Defined.

Lemma aggregation_totals_order_independent_witness :
  option_map textLength
    (rowOf "s1@0:0"
       (getUniqueFailingRules [Examples.small; Examples.smaller]))
  = option_map textLength
      (rowOf "s1@0:0"
         (getUniqueFailingRules [Examples.smaller; Examples.small])).
Proof.
  apply (proj1 aggregation_totals_order_independent). apply perm_swap.
Defined.

Lemma audit_does_not_mutate_inputs_witness :
  Store.snapshot
    (snd (Store.audit Examples.request Examples.storeArtifacts Examples.store))
    Examples.storeArtifacts
  = Some Examples.storeValues /\
  fst (Store.audit Examples.request Examples.storeArtifacts Examples.store)
  = audit Examples.request Examples.storeValues.
Proof.
  apply (StoreRefinement.audit_does_not_mutate_inputs Examples.request
           Examples.storeArtifacts Examples.store).
  reflexivity.
Defined.

(** The store after the audit of the sample: the two fragments and their
    array as they were, then the record that accumulated their text
    lengths and the sorted array of rows. *)
Example audit_store_sample :
  snd (Store.audit Examples.request Examples.storeArtifacts Examples.store)
  = Examples.store
      ++ [Store.Rule (withTextLength Examples.small 500);
          Store.Array [3%nat]].
Proof. reflexivity. Qed.

Lemma selector_resolution_total_iff_even_witness :
  getSelector Examples.oddParent = Throw TypeError /\
  findStyleRuleSource "http://example.com/" None Examples.oddChild
  = Throw TypeError /\
  (exists s, getSelector Examples.body = Ok s) /\
  (exists r,
     findStyleRuleSource "http://example.com/" None Examples.para = Ok r).
Proof.
  destruct (selector_resolution_total_iff_even Examples.oddParent)
    as (Hodd & _ & _).
  destruct (Hodd eq_refl) as (_ & Hs & Hf).
  destruct (selector_resolution_total_iff_even Examples.body)
    as (_ & Heven & _).
  destruct (Heven eq_refl) as (Hs' & Hf').
  split; [exact Hs|]. split; [by apply Hf|]. split; [exact Hs'|].
  by apply Hf'.
Defined.

(** C10, as the specification states it, fails on a rule of the user
    agent: of type Regular and without a style sheet object, it resolves
    to "User Agent Stylesheet", not to "Unknown". *)
Lemma user_agent_rule_without_stylesheet :
  type Examples.userAgentRule = Regular /\
  stylesheet Examples.userAgentRule = None /\
  findStyleRuleSource "http://example.com/" (Some Examples.userAgentRule)
    Examples.para
  = Ok {| source := code "User Agent Stylesheet";
          selector := selString "small" |} /\
  ~ exists sel,
      findStyleRuleSource "http://example.com/" (Some Examples.userAgentRule)
        Examples.para
      = Ok {| source := code "Unknown"; selector := sel |}.
Proof.
  repeat split. intros [sel H]. discriminate H.
Qed.

Lemma regular_without_stylesheet_unknown_witness :
  findStyleRuleSource "http://example.com/" (Some Examples.unlocatedRule)
    Examples.para
  = Ok {| source := code "Unknown"; selector := selString ".a, .b" |}.
Proof.
  apply (regular_without_stylesheet_unknown "http://example.com/"
           Examples.unlocatedRule Examples.para);
    reflexivity.
Defined.

(** ** Further properties: attributes and selectors *)

Lemma getAttributeMapLoop_lookup (k : string) (attrs : list string)
  (m m' : gmap string string) :
  getAttributeMapLoop attrs m = Ok m' ->
  m' !! k = lastValue k attrs (m !! k).
Proof.
  revert m. induction attrs as [| x | x y l IH] using list_pair_ind;
    intros m; simpl.
  - by intros [= <-].
  - done.
  - intros H. rewrite (IH _ H). f_equal.
    destruct (JS.truthy (JS.trim y)) eqn:Et; rewrite ?andb_false_r; [|done].
    rewrite andb_true_r.
    destruct (String.eqb (JS.toLowerCase x) k) eqn:E.
    + apply String.eqb_eq in E. subst k. by rewrite lookup_insert_eq.
    + apply String.eqb_neq in E. by rewrite lookup_insert_ne.
Qed.

(** X1.  The map [getAttributeMap] returns holds, under every key, the trimmed
    value of the last pair of that name (names compared in lower case)
    whose trimmed value is not empty; a pair with a blank value neither
    sets nor clears the key. *)
Theorem getAttributeMap_last_value (attrs : option (list string))
  (m : gmap string string) (k : string) :
  getAttributeMap attrs = Ok m ->
  m !! k = lastValue k (default [] attrs) None.
Proof.
  unfold getAttributeMap. intros H.
  by rewrite (getAttributeMapLoop_lookup k _ _ _ H), lookup_empty.
Qed.

Lemma getAttributeMap_last_value_witness :
  exists m,
    getAttributeMap (Some ["CLASS"; " a "; "class"; "  "; "Class"; "b c"; "id"; ""])
    = Ok m /\
    m !! "class" = Some "b c" /\ m !! "id" = None /\ m !! "CLASS" = None.
Proof.
  eexists. split; [reflexivity|].
  rewrite !(getAttributeMap_last_value
              (Some ["CLASS"; " a "; "class"; "  "; "Class"; "b c"; "id"; ""])
              _ _ eq_refl).
  repeat split.
Defined.

Lemma lowerChar_idem (c : ascii) : JS.lowerChar (JS.lowerChar c) = JS.lowerChar c.
Proof. destruct c as [[] [] [] [] [] [] [] []]; reflexivity. Qed.

Lemma toLowerCase_idem (s : string) :
  JS.toLowerCase (JS.toLowerCase s) = JS.toLowerCase s.
Proof.
  induction s as [|c s IH]; simpl; [done|]. by rewrite lowerChar_idem, IH.
Qed.

(** *** Stripping prefixes *)

Lemma stripPrefix_Some (w l r : list ascii) :
  JS.stripPrefix w l = Some r <-> l = w ++ r.
Proof.
  revert l. induction w as [|a w IH]; intros l; simpl.
  - split; [by intros [= ->] | by intros ->].
  - destruct l as [|b l]; [split; done|].
    destruct (Ascii.eqb a b) eqn:E.
    + apply Ascii.eqb_eq in E. subst b. rewrite IH.
      split; [by intros -> | by intros [= ->]].
    + apply Ascii.eqb_neq in E. split; [done | intros [= H _]; done].
Qed.

Lemma stripFirst_Some (table : list (list ascii)) (l r : list ascii) :
  JS.stripFirst table l = Some r -> exists w, In w table /\ l = w ++ r.
Proof.
  induction table as [|w table IH]; simpl; [done|].
  destruct (JS.stripPrefix w l) as [r'|] eqn:E.
  - intros [= ->]. apply stripPrefix_Some in E. exists w. by split; [left|].
  - intros H. destruct (IH H) as (w' & Hw & Hl). exists w'.
    by split; [right|].
Qed.

Lemma stripFirst_None (table : list (list ascii)) (l : list ascii) :
  JS.stripFirst table l = None <->
  forall w r, In w table -> l <> w ++ r.
Proof.
  induction table as [|w table IH]; simpl; [split; [by intros _ ? ? [] | done]|].
  destruct (JS.stripPrefix w l) as [r'|] eqn:E.
  - apply stripPrefix_Some in E. split; [done|]. intros H.
    exfalso. eapply H; [by left | exact E].
  - rewrite IH. split.
    + intros H w' r [<-|Hw] Hl; [|by eapply H].
      apply stripPrefix_Some in Hl. congruence.
    + intros H w' r Hw. apply H. by right.
Qed.

(** What does not start with a member of the table has no prefix that
    does. *)
Lemma stripFirst_None_prefix (table : list (list ascii)) (p q : list ascii) :
  JS.stripFirst table (p ++ q) = None -> JS.stripFirst table p = None.
Proof.
  rewrite !stripFirst_None. intros H w r Hw ->.
  eapply (H w (r ++ q)); [done|]. by rewrite app_assoc.
Qed.

Section Strip.
Variable table : list (list ascii).
Hypothesis table_not_empty : Forall (fun w => w <> []) table.

Lemma stripFirst_shorter (l r : list ascii) :
  JS.stripFirst table l = Some r -> (length r < length l)%nat.
Proof.
  intros H. apply stripFirst_Some in H as (w & Hw & ->).
  rewrite List.Forall_forall in table_not_empty.
  specialize (table_not_empty w Hw). rewrite length_app.
  destruct w; [done | simpl; lia].
Qed.

Lemma stripAll_None (fuel : nat) (l : list ascii) :
  (length l <= fuel)%nat ->
  JS.stripFirst table (JS.stripAll fuel table l) = None.
Proof.
  revert l. induction fuel as [|fuel IH]; intros l Hl; simpl.
  - destruct l; [|simpl in Hl; lia].
    apply stripFirst_None. intros w r Hw Hn.
    rewrite List.Forall_forall in table_not_empty.
    specialize (table_not_empty w Hw). by destruct w.
  - destruct (JS.stripFirst table l) as [r|] eqn:E; [|done].
    apply IH. apply stripFirst_shorter in E. lia.
Qed.

Lemma stripAll_fixed (fuel : nat) (l : list ascii) :
  JS.stripFirst table l = None -> JS.stripAll fuel table l = l.
Proof. destruct fuel; simpl; [done|]. by intros ->. Qed.

(** What is stripped is a sequence of members of the table, so when
    nothing is left the list is empty or ends with one. *)
Lemma stripAll_suffix (fuel : nat) (l : list ascii) :
  exists p, l = p ++ JS.stripAll fuel table l /\
    (p = [] \/ exists y w, In w table /\ p = y ++ w).
Proof.
  revert l. induction fuel as [|fuel IH]; intros l; simpl.
  - exists []. by split; [|left].
  - destruct (JS.stripFirst table l) as [r|] eqn:E.
    + apply stripFirst_Some in E as (w & Hw & ->).
      destruct (IH r) as (p & Hr & Hp). exists (w ++ p). split.
      * by rewrite <- app_assoc, <- Hr.
      * right. destruct Hp as [->|(y & w' & Hw' & ->)].
        -- exists [], w. by rewrite app_nil_r.
        -- exists (w ++ y), w'. by rewrite app_assoc.
    + exists []. by split; [|left].
Qed.

Lemma stripAll_length (fuel : nat) (l : list ascii) :
  (length (JS.stripAll fuel table l) <= length l)%nat.
Proof.
  destruct (stripAll_suffix fuel l) as (p & Hl & _).
  rewrite Hl at 2. rewrite length_app. lia.
Qed.
End Strip.

Lemma whiteSpaces_not_empty : Forall (fun w => w <> []) JS.whiteSpaces.
Proof. repeat constructor; discriminate. Qed.

Lemma reversed_not_empty (table : list (list ascii)) :
  Forall (fun w => w <> []) table ->
  Forall (fun w => w <> []) (map (@List.rev ascii) table).
Proof.
  intros H. apply List.Forall_map. eapply List.Forall_impl; [|exact H].
  intros w Hw Hr. apply Hw. by rewrite <- (rev_involutive w), Hr.
Qed.

(** *** [trim] *)

Lemma trimStartBytes_clean (l : list ascii) :
  JS.stripFirst JS.whiteSpaces (JS.trimStartBytes l) = None.
Proof. by apply stripAll_None; [apply whiteSpaces_not_empty|]. Qed.

Lemma trimEndBytes_clean (l : list ascii) :
  JS.stripFirst (map (@List.rev ascii) JS.whiteSpaces)
    (List.rev (JS.trimEndBytes l)) = None.
Proof.
  unfold JS.trimEndBytes. rewrite rev_involutive.
  apply stripAll_None; [apply reversed_not_empty, whiteSpaces_not_empty|].
  by rewrite length_rev.
Qed.

Lemma trimEndBytes_prefix (l : list ascii) :
  exists q, l = JS.trimEndBytes l ++ q.
Proof.
  unfold JS.trimEndBytes.
  destruct (stripAll_suffix (map (@List.rev ascii) JS.whiteSpaces)
              (length l) (List.rev l)) as (p & Hl & _).
  exists (List.rev p). rewrite <- rev_app_distr, <- Hl.
  by rewrite rev_involutive.
Qed.

Lemma trimStartBytes_fixed (l : list ascii) :
  JS.stripFirst JS.whiteSpaces l = None -> JS.trimStartBytes l = l.
Proof. apply stripAll_fixed. Qed.

Lemma trimEndBytes_fixed (l : list ascii) :
  JS.stripFirst (map (@List.rev ascii) JS.whiteSpaces) (List.rev l) = None ->
  JS.trimEndBytes l = l.
Proof.
  intros H. unfold JS.trimEndBytes. rewrite stripAll_fixed by done.
  apply rev_involutive.
Qed.

(** The bytes of a trimmed string neither start nor end with white
    space. *)
Lemma trimBytes_clean (l : list ascii) :
  let t := JS.trimEndBytes (JS.trimStartBytes l) in
  JS.stripFirst JS.whiteSpaces t = None /\
  JS.stripFirst (map (@List.rev ascii) JS.whiteSpaces) (List.rev t) = None.
Proof.
  intros t. split; [|apply trimEndBytes_clean].
  destruct (trimEndBytes_prefix (JS.trimStartBytes l)) as [q Hq].
  apply (stripFirst_None_prefix _ t q). fold t in Hq. rewrite <- Hq.
  apply trimStartBytes_clean.
Qed.

Lemma trim_bytes (s : string) :
  list_ascii_of_string (JS.trim s)
  = JS.trimEndBytes (JS.trimStartBytes (list_ascii_of_string s)).
Proof. unfold JS.trim. apply list_ascii_of_string_of_list_ascii. Qed.

Lemma trim_idem (s : string) : JS.trim (JS.trim s) = JS.trim s.
Proof.
  unfold JS.trim at 1. rewrite trim_bytes.
  destruct (trimBytes_clean (list_ascii_of_string s)) as [H1 H2].
  rewrite (trimStartBytes_fixed _ H1), (trimEndBytes_fixed _ H2).
  reflexivity.
Qed.

(** *** [split] *)

Lemma splitBytes_head (fuel : nat) (l : list ascii) :
  exists t ts q, JS.splitBytes fuel l = t :: ts /\ l = t ++ q.
Proof.
  revert l. induction fuel as [|fuel IH]; intros l; cbn [JS.splitBytes].
  - by exists [], [], l.
  - destruct l as [|c l]; [by exists [], [], []|].
    destruct (JS.stripFirst JS.whiteSpaces (c :: l)) as [rest|].
    + exists [], (JS.splitBytes fuel
        (JS.stripAll (length rest) JS.whiteSpaces rest)), (c :: l).
      by split.
    + destruct (IH l) as (t & ts & q & -> & ->). by exists (c :: t), ts, q.
Qed.

Lemma splitBytes_no_white_space (fuel : nat) (l : list ascii) :
  Forall (fun t => hasWhiteSpaceBytes t = false) (JS.splitBytes fuel l).
Proof.
  revert l. induction fuel as [|fuel IH]; intros l; cbn [JS.splitBytes].
  - by repeat constructor.
  - destruct l as [|c l]; [by repeat constructor|].
    destruct (JS.stripFirst JS.whiteSpaces (c :: l)) as [rest|] eqn:E.
    + constructor; [reflexivity | apply IH].
    + destruct (splitBytes_head fuel l) as (t & ts & q & Ht & Hq).
      specialize (IH l). rewrite Ht in *.
      apply List.Forall_cons_iff in IH as [IH1 IH2].
      constructor; [|done]. cbn [hasWhiteSpaceBytes].
      rewrite Hq in E. change (c :: t ++ q) with ((c :: t) ++ q) in E.
      by rewrite (stripFirst_None_prefix _ _ _ E).
Qed.

Lemma reversed_suffix_clean (x l : list ascii) :
  JS.stripFirst (map (@List.rev ascii) JS.whiteSpaces) (List.rev (x ++ l))
  = None ->
  JS.stripFirst (map (@List.rev ascii) JS.whiteSpaces) (List.rev l) = None.
Proof. rewrite rev_app_distr. apply stripFirst_None_prefix. Qed.

Lemma ends_with_white_space (y w : list ascii) :
  In w JS.whiteSpaces ->
  JS.stripFirst (map (@List.rev ascii) JS.whiteSpaces) (List.rev (y ++ w))
  <> None.
Proof.
  intros Hw H. rewrite stripFirst_None in H.
  apply (H (List.rev w) (List.rev y)); [by apply in_map|].
  apply rev_app_distr.
Qed.

(** The pieces of a list that does not end with white space: only the
    first can be empty, and it is when the list is empty or starts with
    white space. *)
Lemma splitBytes_pieces (fuel : nat) (l : list ascii) :
  (length l <= fuel)%nat ->
  JS.stripFirst (map (@List.rev ascii) JS.whiteSpaces) (List.rev l) = None ->
  exists t ts,
    JS.splitBytes fuel l = t :: ts /\
    Forall (fun t' => t' <> []) ts /\
    (t = [] -> l = [] \/ JS.stripFirst JS.whiteSpaces l <> None).
Proof.
  revert l. induction fuel as [|fuel IH]; intros l Hl Hend; cbn [JS.splitBytes].
  - destruct l; [|simpl in Hl; lia]. exists [], []. by repeat split; [|left].
  - destruct l as [|c l]; [exists [], []; by repeat split; [|left]|].
    destruct (JS.stripFirst JS.whiteSpaces (c :: l)) as [rest|] eqn:E.
    + pose proof (stripFirst_shorter _ whiteSpaces_not_empty _ _ E) as Hr.
      apply stripFirst_Some in E as (w & Hw & E).
      destruct (stripAll_suffix JS.whiteSpaces (length rest) rest)
        as (p & Hp & Hpw).
      set (l2 := JS.stripAll (length rest) JS.whiteSpaces rest) in *.
      assert (length l2 <= fuel)%nat as Hl2.
      { pose proof (stripAll_length JS.whiteSpaces (length rest) rest).
        fold l2 in H. simpl in Hl, Hr. lia. }
      assert (JS.stripFirst (map (@List.rev ascii) JS.whiteSpaces)
                (List.rev l2) = None) as Hend2.
      { apply (reversed_suffix_clean (w ++ p)).
        by rewrite <- app_assoc, <- Hp, <- E. }
      destruct (IH l2 Hl2 Hend2) as (t & ts & -> & Hts & Ht).
      exists [], (t :: ts). split; [done|]. split; [|by right].
      constructor; [|done]. intros ->.
      destruct (Ht eq_refl) as [H0|H0].
      * exfalso. rewrite E, Hp, H0, app_nil_r in Hend.
        destruct Hpw as [->|(y & w' & Hw' & ->)].
        -- rewrite app_nil_r in Hend.
           by apply (ends_with_white_space [] w).
        -- rewrite app_assoc in Hend.
           by apply (ends_with_white_space (w ++ y) w').
      * apply H0. apply stripAll_None; [apply whiteSpaces_not_empty | done].
    + assert (JS.stripFirst (map (@List.rev ascii) JS.whiteSpaces)
                (List.rev l) = None) as Hend'
        by (by apply (reversed_suffix_clean [c])).
      destruct (IH l ltac:(simpl in Hl; lia) Hend') as (t & ts & -> & Hts & _).
      exists (c :: t), ts. by repeat split.
Qed.

Lemma trim_tokens (value : string) :
  JS.truthy (JS.trim value) = true ->
  Forall isToken (JS.splitWhiteSpace (JS.trim value)) /\
  JS.splitWhiteSpace (JS.trim value) <> [].
Proof.
  intros Ht. unfold JS.splitWhiteSpace. rewrite trim_bytes.
  set (t := JS.trimEndBytes _).
  assert (String.length (JS.trim value) = length t) as ->.
  { unfold JS.trim. fold t. clear. induction t; simpl; congruence. }
  assert (t <> []) as Hne.
  { intros H. unfold JS.trim in Ht. fold t in Ht. by rewrite H in Ht. }
  destruct (trimBytes_clean (list_ascii_of_string value)) as [H1 H2].
  fold t in H1, H2.
  destruct (splitBytes_pieces (length t) t (le_n _) H2)
    as (t0 & ts & E & Hts & Ht0).
  pose proof (splitBytes_no_white_space (length t) t) as Hw.
  rewrite E in *. split; [|done].
  assert (forall x, x <> [] -> hasWhiteSpaceBytes x = false ->
                    isToken (string_of_list_ascii x)) as Htok.
  { intros x Hx Hxw. split.
    - by destruct x.
    - unfold hasWhiteSpace.
      by rewrite list_ascii_of_string_of_list_ascii. }
  apply List.Forall_cons_iff in Hw as [Hw0 Hws]. simpl. constructor.
  - apply Htok; [|done]. intros ->. destruct (Ht0 eq_refl); done.
  - apply List.Forall_map. rewrite List.Forall_forall in *.
    intros x Hx. apply Htok; auto.
Qed.

Lemma lastValue_origin (k : string) (attrs : list string)
  (acc : option string) (v : string) :
  lastValue k attrs acc = Some v ->
  acc = Some v \/
  exists name value,
    In name attrs /\ In value attrs /\
    JS.toLowerCase name = k /\ JS.trim value = v /\ JS.truthy v = true.
Proof.
  revert acc. induction attrs as [| x | x y l IH] using list_pair_ind;
    intros acc; simpl; [by left | by left |].
  intros H. apply IH in H as [H|(name & value & Hn & Hv & H)].
  - destruct (String.eqb (JS.toLowerCase x) k && JS.truthy (JS.trim y))
      eqn:E; [|by left].
    apply andb_true_iff in E as [Ek Et]. apply String.eqb_eq in Ek.
    injection H as <-. right. exists x, y.
    split; [by left|]. split; [right; by left|]. by repeat split.
  - right. exists name, value.
    split; [right; by right|]. split; [right; by right|]. exact H.
Qed.

(** X2.  Every key of the map [getAttributeMap] returns is in lower case, and
    every value is trimmed and not empty. *)
Theorem getAttributeMap_keys_values (attrs : option (list string))
  (m : gmap string string) (k v : string) :
  getAttributeMap attrs = Ok m ->
  m !! k = Some v ->
  JS.toLowerCase k = k /\ JS.trim v = v /\ v <> EmptyString.
Proof.
  unfold getAttributeMap. intros Hm Hk.
  rewrite (getAttributeMapLoop_lookup k _ _ _ Hm), lookup_empty in Hk.
  apply lastValue_origin in Hk as [Hk|(name & value & _ & _ & <- & <- & Ht)];
    [done|].
  split; [apply toLowerCase_idem|]. split; [apply trim_idem|].
  intros H. by rewrite H in Ht.
Qed.

Lemma getAttributeMap_keys_values_witness :
  JS.toLowerCase "data-x" = "data-x" /\ JS.trim "v 1" = "v 1" /\
  "v 1" <> EmptyString.
Proof.
  eapply (getAttributeMap_keys_values (Some ["Data-X"; "  v 1 "])).
  - reflexivity.
  - reflexivity.
Defined.

(** X3.  The selector [getSelector] returns: "#" and the id when the node
    has one; else, when the node has a class, "." and the pieces of the
    class between its runs of white space, joined by ".", none of them
    empty or with white space in it; else the tag name in lower case. *)
Theorem getSelector_priority (n : Node) (s : string) :
  getSelector n = Ok s ->
  match lastValue "id" (default [] (attributes n)) None with
  | Some id => s = "#" +:+ id
  | None =>
      match lastValue "class" (default [] (attributes n)) None with
      | Some attrClass =>
          s = "." +:+ JS.join "." (JS.splitWhiteSpace attrClass) /\
          JS.splitWhiteSpace attrClass <> [] /\
          Forall isToken (JS.splitWhiteSpace attrClass)
      | None => s = JS.toLowerCase (localName n)
      end
  end.
Proof.
  unfold getSelector, getAttributeMap.
  destruct (getAttributeMapLoop _ ∅) as [m|e] eqn:Em; [|done]. simpl.
  pose proof (getAttributeMapLoop_lookup "id" _ _ _ Em) as Hid.
  pose proof (getAttributeMapLoop_lookup "class" _ _ _ Em) as Hcl.
  rewrite lookup_empty in Hid, Hcl. rewrite <- Hid, <- Hcl.
  destruct (m !! "id") as [id|]; [by intros [= <-]|].
  destruct (m !! "class") as [c|] eqn:Ec; [|by intros [= <-]].
  symmetry in Hcl.
  apply lastValue_origin in Hcl as [Hcl|(name & value & _ & _ & _ & <- & Ht)];
    [done|].
  rewrite Ht. intros [= <-]. destruct (trim_tokens value Ht) as [Hf Hne].
  done.
Qed.

Lemma getSelector_priority_witness :
  getSelector Examples.span = Ok "#note" /\
  (".main.page" = "." +:+ JS.join "." ["main"; "page"] /\
   Forall isToken ["main"; "page"]) /\
  (".a.b" = "." +:+ JS.join "." ["a"; "b"] /\ Forall isToken ["a"; "b"]).
Proof.
  split; [reflexivity|]. split.
  - destruct (getSelector_priority Examples.body ".main.page" eq_refl)
      as (Hs & _ & Ht).
    split; [exact Hs | exact Ht].
  - destruct (getSelector_priority Examples.spaced ".a.b" eq_refl)
      as (Hs & _ & Ht).
    split; [exact Hs | exact Ht].
Defined.

(** ** Further properties: the source locator *)

Lemma odd_or_even (n : Node) :
  Nat.odd (length (default [] (attributes n))) = true \/ evenAttributes n.
Proof.
  unfold evenAttributes, Nat.odd.
  destruct (Nat.even _); [by right | by left].
Qed.

Lemma not_odd_and_even (n : Node) :
  Nat.odd (length (default [] (attributes n))) = true ->
  evenAttributes n -> False.
Proof.
  unfold evenAttributes, Nat.odd. intros H1 H2. by rewrite H2 in H1.
Qed.

Lemma nodeToTableNode_Throw (n : Node) (e : error) :
  nodeToTableNode n = Throw e <->
  e = TypeError /\
  exists p, parentNode n = Some p /\
    Nat.odd (length (default [] (attributes p))) = true.
Proof.
  split.
  - destruct (parentNode n) as [p|] eqn:Ep.
    + destruct (odd_or_even p) as [Ho|He].
      * rewrite (nodeToTableNode_odd n p Ep Ho). intros [= <-].
        split; [done|]. by exists p.
      * destruct (nodeToTableNode_even n) as [t ->]; [|done].
        unfold parentEvenAttributes. by rewrite Ep.
    + destruct (nodeToTableNode_even n) as [t ->]; [|done].
      unfold parentEvenAttributes. by rewrite Ep.
  - intros (-> & p & Ep & Ho). by apply (nodeToTableNode_odd n p).
Qed.

(** X4.  [nodeToTableNode] throws exactly when the node has a parent whose
    attribute sequence has odd length, and then a [TypeError]; the
    attributes of the node itself, of whatever length, are only rendered
    in the snippet. *)
Theorem nodeToTableNode_throws_iff (n : Node) (e : error) :
  (nodeToTableNode n = Throw e <->
   e = TypeError /\
   exists p, parentNode n = Some p /\
     Nat.odd (length (default [] (attributes p))) = true) /\
  (forall t, nodeToTableNode n = Ok t ->
     tn_snippet t
     = "<" +:+ localName n
         +:+ JS.join "" (attributesString 0 (default [] (attributes n)))
         +:+ ">" /\
     (parentNode n = None -> tn_selector t = "")).
Proof.
  split; [apply nodeToTableNode_Throw|].
  intros t. unfold nodeToTableNode.
  destruct (parentNode n) as [p|].
  - destruct (getSelector p); simpl; [|done]. by intros [= <-].
  - simpl. by intros [= <-].
Qed.

Lemma nodeToTableNode_throws_iff_witness :
  nodeToTableNode Examples.oddChild = Throw TypeError /\
  exists t, nodeToTableNode Examples.oddParent = Ok t /\
    tn_snippet t = "<DIV hidden>" /\ tn_selector t = "".
Proof.
  split.
  - apply (proj1 (nodeToTableNode_throws_iff Examples.oddChild TypeError)).
    split; [reflexivity|]. exists Examples.oddParent. by split.
  - eexists. split; [reflexivity|].
    destruct (proj2 (nodeToTableNode_throws_iff Examples.oddParent TypeError)
                _ eq_refl) as [Hs Hp].
    split; [exact Hs | by apply Hp].
Defined.

Lemma isNodeStyle_Regular (d : CssRule) :
  isNodeStyle (Some d) = false <-> type d = Regular.
Proof. unfold isNodeStyle. by destruct (type d). Qed.

Lemma findStyleRuleSource_nodeStyle (baseURL : string) (d : option CssRule)
  (n : Node) :
  isNodeStyle d = true ->
  findStyleRuleSource baseURL d n
  = (let* t := nodeToTableNode n in
     Ok {| source := url baseURL; selector := selNode t |}).
Proof.
  unfold findStyleRuleSource, isNodeStyle. destruct d as [d|]; [|done].
  by intros ->.
Qed.

Lemma findStyleRuleSource_userAgent (baseURL : string) (d : CssRule)
  (n : Node) :
  type d = Regular -> isUserAgentRule d = true ->
  findStyleRuleSource baseURL (Some d) n
  = Ok {| source := code "User Agent Stylesheet";
          selector := selString (selectorOfRule d) |}.
Proof.
  intros Ht Hua. unfold findStyleRuleSource, isUserAgentRule in *.
  rewrite Ht. simpl. by rewrite Hua.
Qed.

Lemma findStyleRuleSource_Ok_iff (baseURL : string) (d : option CssRule)
  (n : Node) :
  (exists o, findStyleRuleSource baseURL d n = Ok o) <->
  (isNodeStyle d = true -> parentEvenAttributes n).
Proof.
  split.
  - intros [o Ho] Hd. rewrite (findStyleRuleSource_nodeStyle _ _ _ Hd) in Ho.
    unfold parentEvenAttributes. destruct (parentNode n) as [p|] eqn:Ep;
      [|done].
    destruct (odd_or_even p) as [Hodd|He]; [|done].
    by rewrite (nodeToTableNode_odd n p Ep Hodd) in Ho.
  - intros H. destruct (isNodeStyle d) eqn:Ed.
    + by apply findStyleRuleSource_total, H.
    + destruct d as [d|]; [|done]. apply isNodeStyle_Regular in Ed.
      destruct (isUserAgentRule d) eqn:Hua.
      * rewrite findStyleRuleSource_userAgent by done. by eexists.
      * rewrite findStyleRuleSource_regular by done.
        destruct (stylesheet d) as [sheet|], (range d) as [r|];
          try destruct (JS.truthy _); by eexists.
Qed.

Lemma findStyleRuleSource_throws_iff_TypeError (baseURL : string)
  (d : option CssRule) (n : Node) (e : error) :
  findStyleRuleSource baseURL d n = Throw e -> e = TypeError.
Proof.
  intros H. destruct (isNodeStyle d) eqn:Ed.
  - rewrite (findStyleRuleSource_nodeStyle _ _ _ Ed) in H.
    destruct (nodeToTableNode n) as [t|e'] eqn:Et; [done|].
    simpl in H. injection H as <-. by apply nodeToTableNode_Throw in Et as [-> _].
  - destruct (proj2 (findStyleRuleSource_Ok_iff baseURL d n)) as [o Ho];
      [by rewrite Ed | congruence].
Qed.

(** X5.  The source locator throws only in its first branch: exactly when the
    rule is missing or of type Attributes or Inline and the node has a
    parent whose attribute sequence has odd length; the exception is a
    [TypeError].  A rule of type Regular is always resolved. *)
Theorem findStyleRuleSource_throws_iff (baseURL : string)
  (d : option CssRule) (n : Node) (e : error) :
  findStyleRuleSource baseURL d n = Throw e <->
  e = TypeError /\ isNodeStyle d = true /\
  exists p, parentNode n = Some p /\
    Nat.odd (length (default [] (attributes p))) = true.
Proof.
  split.
  - intros H. destruct (isNodeStyle d) eqn:Ed.
    + rewrite (findStyleRuleSource_nodeStyle _ _ _ Ed) in H.
      destruct (nodeToTableNode n) as [t|e'] eqn:Et; [done|].
      simpl in H. injection H as <-.
      apply nodeToTableNode_Throw in Et as [-> Hp]. by repeat split.
    + destruct (proj2 (findStyleRuleSource_Ok_iff baseURL d n)) as [o Ho];
        [by rewrite Ed | congruence].
  - intros (-> & Hd & p & Ep & Ho).
    by apply (findStyleRuleSource_nodeStyle_odd baseURL d n p).
Qed.

Lemma findStyleRuleSource_throws_iff_witness :
  findStyleRuleSource "http://example.com/"
    (Some (Examples.bareRule Inline "s1")) Examples.oddChild
  = Throw TypeError.
Proof.
  apply (proj2 (findStyleRuleSource_throws_iff "http://example.com/"
                  (Some (Examples.bareRule Inline "s1")) Examples.oddChild
                  TypeError)).
  split; [reflexivity|]. split; [reflexivity|].
  exists Examples.oddParent. by split.
Defined.

(** X6.  The origin of a rule of type Regular, in the order the source locator
    decides it: the user agent when the parent rule is of user-agent
    origin, whatever the style sheet and the range; else "dynamic" when
    there is a style sheet with an empty URL, even with a range and with
    [hasSourceURL]; else a source location when there are a style sheet
    and a range; else "Unknown".  The selector is always the joined
    selectors of the parent rule. *)
Theorem regular_rule_origin (baseURL : string) (d : CssRule) (n : Node) :
  type d = Regular ->
  exists o,
    findStyleRuleSource baseURL (Some d) n = Ok o /\
    selector o = selString (selectorOfRule d) /\
    (source o = code "User Agent Stylesheet" <-> isUserAgentRule d = true) /\
    (source o = code "dynamic" <->
     isUserAgentRule d = false /\
     exists sheet, stylesheet d = Some sheet /\
       Stylesheet.sourceURL sheet = EmptyString) /\
    ((exists u provider line column,
        source o = source_location u provider line column) <->
     isUserAgentRule d = false /\
     exists sheet r, stylesheet d = Some sheet /\ range d = Some r /\
       Stylesheet.sourceURL sheet <> EmptyString) /\
    (source o = code "Unknown" <->
     isUserAgentRule d = false /\
     (stylesheet d = None \/
      exists sheet, stylesheet d = Some sheet /\ range d = None /\
        Stylesheet.sourceURL sheet <> EmptyString)).
Proof.
  intros Ht. destruct (isUserAgentRule d) eqn:Hua.
  - rewrite findStyleRuleSource_userAgent by done.
    eexists. split; [reflexivity|]. split; [reflexivity|]. simpl.
    repeat split; first [done | firstorder congruence].
  - rewrite findStyleRuleSource_regular by done.
    destruct (stylesheet d) as [sheet|] eqn:Es.
    + destruct (range d) as [r|] eqn:Er;
        destruct (Stylesheet.sourceURL sheet) as [|c u] eqn:Eu; simpl;
        (eexists; split; [reflexivity|]; split; [reflexivity|]; simpl);
        repeat split;
        first [ done
              | by eexists _, _, _, _
              | by eexists; split; [reflexivity | rewrite Eu]
              | by eexists _, _; repeat split; rewrite Eu
              | by right; eexists; repeat split; rewrite Eu
              | firstorder congruence ].
    + eexists. split; [by destruct (range d)|]. split; [reflexivity|].
      simpl. repeat split; first [done | by left | firstorder congruence].
Qed.

Lemma regular_rule_origin_witness :
  exists o,
    findStyleRuleSource "http://example.com/" (Some Examples.userAgentRule)
      Examples.para = Ok o /\
    source o = code "User Agent Stylesheet".
Proof.
  destruct (regular_rule_origin "http://example.com/" Examples.userAgentRule
              Examples.para eq_refl) as (o & Ho & _ & Hua & _).
  exists o. split; [exact Ho|]. by apply Hua.
Defined.

(** ** Doubles *)

Lemma pow2Q_power (k : Z) : (JS.pow2Q k == 2 ^ k)%Q.
Proof.
  unfold JS.pow2Q. destruct (0 <=? k) eqn:E.
  - apply Z.leb_le in E. by apply (Zpower_Qpower 2 k).
  - apply Z.leb_gt in E.
    replace k with (- - k) at 2 by lia. rewrite Qpower_opp.
    rewrite <- (Zpower_Qpower 2 (- k)) by lia.
    assert (0 < 2 ^ (- k)) as Hp by (apply Z.pow_pos_nonneg; lia).
    destruct (2 ^ (- k)) as [|p|p] eqn:Ep; try lia.
    reflexivity.
Qed.

Lemma pow2Q_pos (k : Z) : (0 < JS.pow2Q k)%Q.
Proof. rewrite pow2Q_power. apply Qpower_0_lt. reflexivity. Qed.

Lemma pow2Q_add (j k : Z) : (JS.pow2Q (j + k) == JS.pow2Q j * JS.pow2Q k)%Q.
Proof. rewrite !pow2Q_power. by apply Qpower_plus. Qed.

Lemma pow2Q_0 : (JS.pow2Q 0 == 1)%Q.
Proof. reflexivity. Qed.

Lemma scale2_value (a b k : Z) :
  0 < b ->
  0 < snd (JS.scale2 a b k) /\
  (inject_Z (fst (JS.scale2 a b k)) / inject_Z (snd (JS.scale2 a b k))
   == inject_Z a / inject_Z b * JS.pow2Q k)%Q.
Proof.
  intros Hb. unfold JS.scale2, JS.pow2Q. destruct (0 <=? k) eqn:E; simpl.
  - split; [done|]. rewrite inject_Z_mult. field.
    intros H. apply (inject_Z_injective b 0) in H. lia.
  - apply Z.leb_gt in E.
    assert (0 < 2 ^ (- k)) as Hp by (apply Z.pow_pos_nonneg; lia).
    split; [lia|]. rewrite inject_Z_mult.
    destruct (2 ^ (- k)) as [|p|p] eqn:Ep; try lia. simpl.
    assert (1 # p == / inject_Z (Z.pos p))%Q as -> by reflexivity.
    field. split.
    + intros H. apply (inject_Z_injective (Z.pos p) 0) in H. lia.
    + intros H. apply (inject_Z_injective b 0) in H. lia.
Qed.

Lemma nearestEven_near (n d : Z) :
  0 < d -> 2 * Z.abs (JS.nearestEven n d * d - n) <= d.
Proof.
  intros Hd. unfold JS.nearestEven.
  pose proof (Z.div_mod n d ltac:(lia)) as Hn.
  pose proof (Z.mod_pos_bound n d Hd) as Hr.
  destruct (2 * (n mod d) ?= d) eqn:E.
  - apply Z.compare_eq in E. destruct (Z.even (n / d)); nia.
  - rewrite Z.compare_lt_iff in E. nia.
  - rewrite Z.compare_gt_iff in E. nia.
Qed.

Lemma Qabs_quotient_le (m n d : Z) (r : Q) :
  0 < d ->
  (inject_Z (Z.abs (m * d - n)) <= r * inject_Z d)%Q ->
  (Qabs (inject_Z m - inject_Z n / inject_Z d) <= r)%Q.
Proof.
  intros Hd H.
  assert (0 < inject_Z d)%Q as Hdq.
  { change 0%Q with (inject_Z 0). by rewrite <- Zlt_Qlt. }
  assert (inject_Z m - inject_Z n / inject_Z d
          == inject_Z (m * d - n) / inject_Z d)%Q as ->.
  { unfold Zminus. rewrite inject_Z_plus, inject_Z_mult, inject_Z_opp.
    field. intros H0. rewrite H0 in Hdq. by apply Qlt_irrefl in Hdq. }
  unfold Qdiv. rewrite Qabs_Qmult.
  rewrite (Qabs_pos (/ inject_Z d)) by (apply Qlt_le_weak, Qinv_lt_0_compat, Hdq).
  apply Qle_shift_div_r; [done|].
  assert (Qabs (inject_Z (m * d - n)) == inject_Z (Z.abs (m * d - n)))%Q as ->; [|done].
  unfold Qabs, inject_Z. reflexivity.
Qed.

Lemma nearestEven_bound (n d : Z) :
  0 < d ->
  (Qabs (inject_Z (JS.nearestEven n d) - inject_Z n / inject_Z d) <= 1 # 2)%Q.
Proof.
  intros Hd. apply Qabs_quotient_le; [done|].
  pose proof (nearestEven_near n d Hd) as H.
  assert ((1 # 2) * inject_Z d == inject_Z d / 2)%Q as -> by (field).
  apply Qle_shift_div_l; [reflexivity|].
  change 2%Q with (inject_Z 2). rewrite <- inject_Z_mult, <- Zle_Qle. lia.
Qed.

(** 2^L <= a / b *)
Lemma log2Quot_le (a b : Z) :
  0 < a -> 0 < b ->
  (JS.pow2Q (JS.log2Quot a b) <= inject_Z a / inject_Z b)%Q.
Proof.
  intros Ha Hb. unfold JS.log2Quot.
  set (e0 := Z.log2 a - Z.log2 b).
  destruct (scale2_value a b (- e0) Hb) as [Hd Hv].
  destruct (JS.scale2 a b (- e0)) as [n d]. simpl in Hd, Hv.
  assert (0 < inject_Z b)%Q as Hbq.
  { change 0%Q with (inject_Z 0). by rewrite <- Zlt_Qlt. }
  assert (0 < inject_Z d)%Q as Hdq.
  { change 0%Q with (inject_Z 0). by rewrite <- Zlt_Qlt. }
  destruct (d <=? n) eqn:E.
  - apply Z.leb_le in E.
    assert (1 <= inject_Z n / inject_Z d)%Q as H1.
    { apply Qle_shift_div_l; [done|]. rewrite Qmult_1_l. by rewrite <- Zle_Qle. }
    rewrite Hv in H1.
    assert (inject_Z a / inject_Z b
            == inject_Z a / inject_Z b * JS.pow2Q (- e0) * JS.pow2Q e0)%Q as ->.
    { rewrite <- Qmult_assoc, <- pow2Q_add.
      replace (- e0 + e0) with 0 by lia. rewrite pow2Q_0. ring. }
    rewrite <- (Qmult_1_l (JS.pow2Q e0)) at 1.
    apply Qmult_le_compat_r; [done|]. apply Qlt_le_weak, pow2Q_pos.
  - clear E Hv Hd Hdq n d.
    pose proof (Z.log2_spec a Ha) as [Hal _].
    pose proof (Z.log2_spec b Hb) as [_ Hbu].
    pose proof (Z.log2_nonneg a). pose proof (Z.log2_nonneg b).
    apply Qle_shift_div_l; [done|].
    apply Qle_trans with (JS.pow2Q (e0 - 1) * JS.pow2Q (Z.succ (Z.log2 b)))%Q.
    + apply Qmult_le_l; [apply pow2Q_pos|].
      unfold JS.pow2Q at 1.
      destruct (0 <=? Z.succ (Z.log2 b)) eqn:E; [|apply Z.leb_gt in E; lia].
      rewrite <- Zle_Qle. lia.
    + rewrite <- pow2Q_add. replace (e0 - 1 + Z.succ (Z.log2 b)) with (Z.log2 a) by lia.
      unfold JS.pow2Q.
      destruct (0 <=? Z.log2 a) eqn:E; [|apply Z.leb_gt in E; lia].
      by rewrite <- Zle_Qle.
Qed.

Lemma inject_Z_pos (z : Z) : 0 < z -> (0 < inject_Z z)%Q.
Proof. intros H. change 0%Q with (inject_Z 0). by rewrite <- Zlt_Qlt. Qed.

(** The error of a rounding in the range of the normal doubles is at most
    2^-53 of the number rounded. *)
Lemma roundDoublePos_error (a b : Z) :
  0 < a -> 0 < b ->
  (JS.pow2Q (-1022) <= inject_Z a / inject_Z b)%Q ->
  (Qabs (JS.roundDoublePos a b - inject_Z a / inject_Z b)
   <= inject_Z a / inject_Z b * JS.pow2Q (-53))%Q.
Proof.
  intros Ha Hb Hn. unfold JS.roundDoublePos.
  set (e := Z.max (JS.log2Quot a b) (-1022)).
  assert (JS.pow2Q e <= inject_Z a / inject_Z b)%Q as He.
  { unfold e. destruct (Z.max_spec (JS.log2Quot a b) (-1022)) as [[_ ->]|[_ ->]];
      [done | by apply log2Quot_le]. }
  destruct (scale2_value a b (52 - e) Hb) as [Hd Hv].
  destruct (JS.scale2 a b (52 - e)) as [n d]. simpl in Hd, Hv.
  rewrite Qred_correct.
  pose proof (nearestEven_bound n d Hd) as Hm.
  set (m := inject_Z (JS.nearestEven n d)) in *.
  set (P := JS.pow2Q (e - 52)).
  assert (JS.pow2Q (52 - e) * P == 1)%Q as H1.
  { unfold P. rewrite <- pow2Q_add. replace (52 - e + (e - 52)) with 0 by lia.
    reflexivity. }
  assert (m * P - inject_Z a / inject_Z b
          == (m - inject_Z n / inject_Z d) * P)%Q as ->.
  { rewrite Hv.
    transitivity (m * P - inject_Z a / inject_Z b * (JS.pow2Q (52 - e) * P))%Q.
    - rewrite H1. ring.
    - ring. }
  rewrite Qabs_Qmult, (Qabs_pos P) by apply Qlt_le_weak, pow2Q_pos.
  apply Qle_trans with ((1 # 2) * P)%Q.
  - apply Qmult_le_compat_r; [done | apply Qlt_le_weak, pow2Q_pos].
  - assert ((1 # 2) * P == JS.pow2Q e * JS.pow2Q (-53))%Q as ->.
    { unfold P. rewrite <- pow2Q_add.
      replace (e - 52) with (e + -53 + 1) by lia.
      rewrite (pow2Q_add (e + -53) 1).
      assert (JS.pow2Q 1 == 2)%Q as -> by reflexivity.
      field. }
    apply Qmult_le_compat_r; [done | apply Qlt_le_weak, pow2Q_pos].
Qed.

Lemma roundDouble_0 (x : Q) : (x == 0)%Q -> JS.roundDouble x = 0%Q.
Proof.
  destruct x as [n d]. unfold Qeq. simpl. rewrite Z.mul_1_r. by intros ->.
Qed.

Lemma roundDouble_error (x : Q) :
  (JS.pow2Q (-1022) <= x)%Q ->
  (Qabs (JS.roundDouble x - x) <= x * JS.pow2Q (-53))%Q.
Proof.
  intros Hx.
  assert (0 < x)%Q as Hp by (eapply Qlt_le_trans; [apply pow2Q_pos | exact Hx]).
  destruct x as [[|a|a] d]; [done| |done].
  change (JS.roundDouble (Z.pos a # d))
    with (JS.roundDoublePos (Z.pos a) (Z.pos d)).
  rewrite (Qmake_Qdiv (Z.pos a) d) in Hx |- *.
  by apply roundDoublePos_error.
Qed.

Lemma percentage_0 (total : Z) : percentage 0 total = 0%Q.
Proof.
  unfold percentage, JS.multiply, JS.divide.
  rewrite (roundDouble_0 (inject_Z 0 / inject_Z total)).
  - by apply roundDouble_0.
  - unfold Qdiv. by rewrite Qmult_0_l.
Qed.

Lemma percentage_error (x total : Z) :
  0 <= x -> 0 < total <= 2 ^ 53 ->
  (Qabs (percentage x total - inject_Z x / inject_Z total * 100)
   <= inject_Z x / inject_Z total * (300 # 2 ^ 53))%Q.
Proof.
  intros Hx [Ht Hb].
  destruct (Z.eq_dec x 0) as [->|Hx0].
  { rewrite percentage_0. unfold Qdiv. rewrite !Qmult_0_l. done. }
  set (q := (inject_Z x / inject_Z total)%Q).
  set (u := JS.pow2Q (-53)).
  assert (0 < u)%Q as Hu0 by apply pow2Q_pos.
  assert (u <= 1)%Q as Hu1 by (apply Qle_bool_imp_le; reflexivity).
  assert (u <= q)%Q as Hq.
  { unfold q. apply Qle_shift_div_l; [by apply inject_Z_pos|].
    apply Qle_trans with 1%Q.
    - apply Qle_trans with (u * inject_Z (2 ^ 53))%Q.
      + apply Qmult_le_l; [done|]. by rewrite <- Zle_Qle.
      + apply Qle_bool_imp_le. reflexivity.
    - change 1%Q with (inject_Z 1). rewrite <- Zle_Qle. lia. }
  assert (JS.pow2Q (-1022) <= q)%Q as Hn.
  { eapply Qle_trans; [|exact Hq]. apply Qle_bool_imp_le. reflexivity. }
  pose proof (roundDouble_error q Hn) as H1. fold u in H1.
  unfold percentage, JS.multiply, JS.divide. fold q.
  set (d1 := JS.roundDouble q) in *.
  apply Qabs_Qle_condition in H1 as [H1l H1u].
  assert (0 <= q * u)%Q as HA by (apply Qmult_le_0_compat; lra).
  assert (q * u <= q)%Q as HAq.
  { rewrite <- (Qmult_1_r q) at 2. apply Qmult_le_l; lra. }
  assert (d1 * u <= 2 * (q * u))%Q as HB.
  { rewrite Qmult_assoc. apply Qmult_le_compat_r; lra. }
  assert (0 <= d1 * u)%Q as HB0 by (apply Qmult_le_0_compat; lra).
  assert (JS.pow2Q (-1022) <= d1 * 100)%Q as Hn1.
  { apply Qle_trans with (u * 50)%Q; [apply Qle_bool_imp_le; reflexivity|].
    assert (u <= 1 # 2)%Q by (apply Qle_bool_imp_le; reflexivity).
    assert (q * u <= q * (1 # 2))%Q by (apply Qmult_le_l; lra).
    lra. }
  pose proof (roundDouble_error (d1 * 100) Hn1) as H2. fold u in H2.
  apply Qabs_Qle_condition in H2 as [H2l H2u].
  apply Qabs_Qle_condition.
  assert (q * (300 # 2 ^ 53) == 300 * (q * u))%Q as ->.
  { unfold u. assert (JS.pow2Q (-53) == 1 # 2 ^ 53)%Q as -> by reflexivity.
    assert ((300 # 2 ^ 53) == 300 * (1 # 2 ^ 53))%Q as -> by reflexivity.
    ring. }
  set (p := JS.roundDouble (d1 * 100)) in *.
  split; lra.
Qed.

Lemma percentage_pos (x total : Z) :
  0 <= x -> 0 < total <= 2 ^ 53 ->
  ((0 < percentage x total)%Q <-> 0 < x).
Proof.
  intros Hx Ht. split.
  - intros Hp. destruct (Z.eq_dec x 0) as [->|]; [|lia].
    rewrite percentage_0 in Hp. by apply Qlt_irrefl in Hp.
  - intros Hx0. pose proof (percentage_error x total Hx Ht) as He.
    apply Qabs_Qle_condition in He as [He _].
    set (q := (inject_Z x / inject_Z total)%Q) in *.
    assert (0 < q)%Q as Hq.
    { unfold q. apply Qlt_shift_div_l; [apply inject_Z_pos; lia|].
      rewrite Qmult_0_l. by apply inject_Z_pos. }
    assert (q * (300 # 2 ^ 53) <= q * 1)%Q as H1.
    { apply Qmult_le_l; [done|]. apply Qle_bool_imp_le. reflexivity. }
    lra.
Qed.

Lemma sum_percentage_error (total : Z) (l : list Z) :
  0 < total <= 2 ^ 53 -> Forall (fun x => 0 <= x) l ->
  (Qabs (sumQ (map (fun x => percentage x total) l)
         - inject_Z (sumZ l) / inject_Z total * 100)
   <= inject_Z (sumZ l) / inject_Z total * (300 # 2 ^ 53))%Q.
Proof.
  intros Ht Hl. induction Hl as [|x l Hx Hl IH]; cbn [map sumQ sumZ].
  - unfold Qdiv. rewrite !Qmult_0_l. done.
  - pose proof (percentage_error x total Hx Ht) as He.
    rewrite inject_Z_plus.
    set (c := (300 # 2 ^ 53)%Q) in *.
    set (px := percentage x total) in *.
    set (s := sumQ (map (fun x => percentage x total) l)) in *.
    assert (px + s - (inject_Z x + inject_Z (sumZ l)) / inject_Z total * 100
            == (px - inject_Z x / inject_Z total * 100)
               + (s - inject_Z (sumZ l) / inject_Z total * 100))%Q as ->.
    { unfold Qdiv. ring. }
    assert ((inject_Z x + inject_Z (sumZ l)) / inject_Z total * c
            == inject_Z x / inject_Z total * c
               + inject_Z (sumZ l) / inject_Z total * c)%Q as ->.
    { unfold Qdiv. ring. }
    eapply Qle_trans; [apply Qabs_triangle|]. by apply Qplus_le_compat.
Qed.

(** ** Further properties: the audit *)

Lemma mapM_Throw {A B : Type} (f : A -> result B) (l : list A) (e : error) :
  mapM f l = Throw e -> exists x, In x l /\ f x = Throw e.
Proof.
  induction l as [|x l IH]; simpl; [done|].
  destruct (f x) as [y|e'] eqn:E; simpl.
  - destruct (mapM f l) as [ys|e'']; simpl; [done|].
    intros [= ->]. destruct (IH eq_refl) as (x' & Hx & Hf).
    exists x'. split; [by right | done].
  - intros [= ->]. exists x. split; [by left | done].
Qed.

Lemma mapM_length {A B : Type} (f : A -> result B) (l : list A)
  (ys : list B) :
  mapM f l = Ok ys -> length ys = length l.
Proof.
  intros H. apply mapM_Ok in H. induction H; simpl; congruence.
Qed.

Lemma ruleToItem_Ok_iff (pageUrl : string) (total : Z) (r : FailingNodeData) :
  (exists item, ruleToItem pageUrl total r = Ok item) <-> resolvable r.
Proof.
  unfold ruleToItem, resolvable.
  rewrite <- (findStyleRuleSource_Ok_iff pageUrl (cssRule r) (node r)).
  destruct (findStyleRuleSource pageUrl (cssRule r) (node r)) as [o|e]; simpl.
  - split; intros _; by eexists.
  - split; by intros [? ?].
Qed.

Lemma ruleToItem_Throw (pageUrl : string) (total : Z) (r : FailingNodeData)
  (e : error) :
  ruleToItem pageUrl total r = Throw e -> e = TypeError.
Proof.
  unfold ruleToItem.
  destruct (findStyleRuleSource pageUrl (cssRule r) (node r)) as [o|e']
    eqn:E; simpl; [done|].
  intros [= <-]. by apply findStyleRuleSource_throws_iff_TypeError in E.
Qed.

Lemma percentOf_pos (x total : Z) :
  0 < total -> ((0 < percentOf x total)%Q <-> 0 < x).
Proof.
  intros Ht. destruct total as [|p|p]; try lia.
  unfold percentOf, Qlt, Qdiv, Qmult, Qinv, inject_Z. cbn [Qnum Qden].
  lia.
Qed.

Lemma sumTextLength_perm (l l' : list FailingNodeData) :
  Permutation l l' -> sumTextLength l = sumTextLength l'.
Proof. induction 1; simpl; lia. Qed.

Lemma sumTextLength_sortedRules (data : list FailingNodeData) :
  sumTextLength (sortedRules data) = sumTextLength data.
Proof.
  unfold sortedRules.
  rewrite (sumTextLength_perm _ _ (sort_perm _ _)).
  apply sumTextLength_getUniqueFailingRules.
Qed.

Lemma passing_positive_iff {D : Type} (a : FontSizeArtifact D) :
  0 < totalTextLength a ->
  Qgtb (percentageOfPassingText a) 0 = (failingTextLength a <? totalTextLength a).
Proof.
  intros Ht. apply eq_true_iff_eq. rewrite Qgtb_lt, Z.ltb_lt.
  change (percentageOfPassingText a)
    with (percentOf (totalTextLength a - failingTextLength a)
            (totalTextLength a)).
  rewrite percentOf_pos by done. lia.
Qed.

Lemma sumZ_app (l l' : list Z) : sumZ (l ++ l') = sumZ l + sumZ l'.
Proof. induction l as [|x l IH]; simpl; lia. Qed.

Lemma sumZ_textLength (l : list FailingNodeData) :
  sumZ (map textLength l) = sumTextLength l.
Proof. induction l as [|f l IH]; simpl; lia. Qed.

Lemma textLengthOf_nonneg (k : string) (l : list FailingNodeData) :
  Forall (fun f => 0 <= textLength f) l -> 0 <= textLengthOf k l.
Proof.
  unfold textLengthOf. induction 1 as [|f l Hf Hl IH]; simpl; [done|].
  destruct (hasArtifactId k f); simpl; lia.
Qed.

Lemma sortedRules_nonneg (data : list FailingNodeData) :
  Forall (fun f => 0 <= textLength f) data ->
  Forall (fun x => 0 <= x) (map textLength (sortedRules data)).
Proof.
  intros Hd. apply List.Forall_map, List.Forall_forall. intros r Hr.
  apply (Permutation_in _ (sort_perm byTextLengthDesc _)) in Hr.
  apply row_is_fragment in Hr as (f & _ & ->). simpl.
  by apply textLengthOf_nonneg.
Qed.

Lemma coverage_of_rows (pageUrl : string) (total : Z)
  (rules : list FailingNodeData) (rows : list TableItem) :
  Forall2 (fun r item => ruleToItem pageUrl total r = Ok item) rules rows ->
  map coverage rows
  = map (fun q => JS.toFixed2 q +:+ "%")
      (map (fun x => JS.multiply (JS.divide (inject_Z x) (inject_Z total)) 100)
         (map textLength rules)).
Proof.
  induction 1 as [|r item l l' Hri Hl IH]; [done|].
  simpl. rewrite IH. f_equal. unfold ruleToItem in Hri.
  destruct (findStyleRuleSource _ _ _); simpl in Hri; [|done].
  by injection Hri as <-.
Qed.

Section AuditExtras.
Context {MetaElements : Type}.
Variable request : MetaElements -> result ViewportMeta.
Implicit Type artifacts : Artifacts (list FailingNodeData) MetaElements.

Lemma audit_cases artifacts (p : Product) :
  audit request artifacts = Ok p ->
  (p = notApplicableProduct /\ TestedAsMobileDevice artifacts = false) \/
  (p = viewportProduct /\ TestedAsMobileDevice artifacts = true) \/
  (p = noTextProduct /\ TestedAsMobileDevice artifacts = true) \/
  (exists items,
     p = reportOf (FontSize artifacts) items /\
     TestedAsMobileDevice artifacts = true /\
     totalTextLength (FontSize artifacts) <> 0).
Proof.
  unfold audit. destruct (TestedAsMobileDevice artifacts) eqn:Et; simpl.
  - destruct (request (MetaElementsOf artifacts)) as [v|e]; simpl; [|done].
    destruct (isMobileOptimized v); simpl.
    + destruct (totalTextLength (FontSize artifacts) =? 0) eqn:Ez.
      * intros [= <-]. right. right. by left.
      * destruct (mapM _ _) as [items|e]; simpl; [|done].
        apply Z.eqb_neq in Ez. intros [= <-]. right. right. right.
        by exists items.
    + intros [= <-]. right. by left.
  - intros [= <-]. by left.
Qed.

(** X7.  Whatever the audit returns has score 0 or 1.  It has details exactly
    when it has a display value, that is, after a full analysis (tested as
    mobile, some text), and then the table has the four headings;
    [notApplicable] is set exactly when the page was not tested as a mobile
    device; an explanation comes only with score 0 and without details. *)
Theorem audit_product_shape artifacts (p : Product) :
  audit request artifacts = Ok p ->
  (score p = 0 \/ score p = 1) /\
  (details p = None <-> displayValue p = None) /\
  (notApplicable p = Some true <-> TestedAsMobileDevice artifacts = false) /\
  (explanation p <> None -> score p = 0 /\ details p = None) /\
  (forall t, details p = Some t ->
     headings t = headingsOfTable /\
     TestedAsMobileDevice artifacts = true /\
     totalTextLength (FontSize artifacts) <> 0).
Proof.
  intros H. apply audit_cases in H.
  destruct H as [[-> Ht]|[[-> Ht]|[[-> Ht]|(items & -> & Ht & Hz)]]];
    unfold reportOf; simpl; rewrite Ht.
  - split; [by right|]. by repeat split.
  - split; [by left|]. by repeat split.
  - split; [by right|]. by repeat split.
  - split; [destruct (Qgeb _ _); simpl; [by right | by left]|].
    split; [done|]. split; [done|]. split; [done|].
    intros t [= <-]. done.
Qed.
End AuditExtras.

Lemma audit_product_shape_witness :
  exists p, audit Examples.request Examples.scenarioE = Ok p /\
    (score p = 0 \/ score p = 1) /\
    forall t, details p = Some t -> headings t = headingsOfTable.
Proof.
  eexists. split; [reflexivity|].
  destruct (audit_product_shape Examples.request Examples.scenarioE _ eq_refl)
    as (Hs & _ & _ & _ & Hd).
  split; [exact Hs|]. intros t Ht. by apply Hd.
Defined.

Section AuditFurther.
Context {MetaElements : Type}.
Variable request : MetaElements -> result ViewportMeta.
Implicit Type artifacts : Artifacts (list FailingNodeData) MetaElements.

(** X8.  The viewport classifier is asked only for a page tested as a mobile
    device: for any other page the outcome of the audit is the same
    whatever the classifier is.  When it is asked and rejects, the audit
    rejects with the same error, whatever the other artifacts. *)
Theorem audit_classifier_rejection artifacts :
  (TestedAsMobileDevice artifacts = false ->
   forall request' : MetaElements -> result ViewportMeta,
     audit request artifacts = audit request' artifacts) /\
  (forall e,
     TestedAsMobileDevice artifacts = true ->
     request (MetaElementsOf artifacts) = Throw e ->
     audit request artifacts = Throw e).
Proof.
  unfold audit. split.
  - by intros ->.
  - intros e -> ->. done.
Qed.

(** X9.  A full analysis returns exactly when the source locator resolves every
    aggregated rule, that is, when no rule that is missing or of type
    Attributes or Inline sits on a node whose parent has an attribute
    sequence of odd length; otherwise the audit throws, and what it throws
    is a [TypeError].  Only the first fragment of each id counts. *)
Theorem audit_returns_iff artifacts :
  fullAnalysis request artifacts ->
  ((exists p, audit request artifacts = Ok p) <->
   Forall resolvable
     (getUniqueFailingRules
        (analyzedFailingNodesData (FontSize artifacts)))) /\
  (forall e, audit request artifacts = Throw e -> e = TypeError).
Proof.
  intros Hf. rewrite (audit_fullAnalysis request artifacts Hf). cbv zeta.
  set (f := ruleToItem _ _). split; [split|].
  - intros [p Hp]. destruct (mapM f _) as [items|e] eqn:Em; [|done].
    apply mapM_Ok in Em. apply List.Forall_forall. intros r Hr.
    apply (Permutation_in _ (Permutation_sym (sort_perm byTextLengthDesc _)))
      in Hr.
    fold (sortedRules (analyzedFailingNodesData (FontSize artifacts))) in Hr.
    clear Hp. induction Em as [|x y l l' Hxy Em IH]; [done|].
    destruct Hr as [->|Hr]; [|by apply IH].
    apply (ruleToItem_Ok_iff (finalUrl (URL artifacts))
             (totalTextLength (FontSize artifacts))). by exists y.
  - intros Hall. destruct (mapM_total f
      (sortedRules (analyzedFailingNodesData (FontSize artifacts))))
      as [items ->]; [|by eexists].
    apply List.Forall_forall. intros r Hr.
    apply (Permutation_in _ (sort_perm byTextLengthDesc _)) in Hr.
    rewrite List.Forall_forall in Hall.
    by apply ruleToItem_Ok_iff, Hall.
  - intros e. destruct (mapM f _) as [items|e'] eqn:Em; [done|].
    simpl. intros [= <-]. apply mapM_Throw in Em as (r & _ & Hr).
    by apply ruleToItem_Throw in Hr.
Qed.

(** X10.  The table of a full report has one row for each distinct id among the
    fragments, one more when analyzedFailingTextLength < failingTextLength
    and one more when failingTextLength < totalTextLength. *)
Theorem audit_row_count artifacts (p : Product) :
  fullAnalysis request artifacts ->
  0 < totalTextLength (FontSize artifacts) ->
  audit request artifacts = Ok p ->
  let a := FontSize artifacts in
  exists t,
    details p = Some t /\
    length (items t)
    = (length (firstSeen (map artifactIdOf (analyzedFailingNodesData a)))
       + (if (analyzedFailingTextLength a <? failingTextLength a)%Z
          then 1 else 0)
       + (if (failingTextLength a <? totalTextLength a)%Z
          then 1 else 0))%nat.
Proof.
  intros Hf Ht Hp a. rewrite (audit_fullAnalysis request artifacts Hf) in Hp.
  cbv zeta in Hp. fold a in Hp.
  destruct (mapM _ _) as [rows|e] eqn:Em; [|done].
  simpl in Hp. injection Hp as <-. apply mapM_length in Em.
  unfold sortedRules in Em.
  rewrite (Permutation_length (sort_perm _ _)) in Em.
  rewrite <- (length_map artifactIdOf), ids_getUniqueFailingRules in Em.
  eexists. split; [reflexivity|]. unfold reportOf. cbn [items].
  rewrite (passing_positive_iff a Ht).
  destruct (_ <? _), (_ <? _); rewrite ?length_app; simpl; lia.
Qed.

(** X11.  The score of a full analysis of a page with text is 1 exactly when the
    failing text is at most two fifths of the text, 5 * failingTextLength
    <= 2 * totalTextLength; the fragments have no part in it. *)
Theorem audit_score_from_totals artifacts (p : Product) :
  fullAnalysis request artifacts ->
  0 < totalTextLength (FontSize artifacts) ->
  audit request artifacts = Ok p ->
  (score p = 1 <->
   5 * failingTextLength (FontSize artifacts)
   <= 2 * totalTextLength (FontSize artifacts)) /\
  (score p = 0 <->
   2 * totalTextLength (FontSize artifacts)
   < 5 * failingTextLength (FontSize artifacts)).
Proof.
  intros Hf Ht Hp. rewrite (audit_fullAnalysis request artifacts Hf) in Hp.
  cbv zeta in Hp. destruct (mapM _ _) as [rows|e]; [|done].
  simpl in Hp. injection Hp as <-. unfold reportOf. cbn [score].
  pose proof (passing_threshold_integers
                (totalTextLength (FontSize artifacts))
                (failingTextLength (FontSize artifacts)) Ht) as Hi.
  destruct (Qgeb _ _) eqn:E; simpl.
  - apply Qgeb_le, Hi in E. split; split; intros; lia.
  - assert (~ 60 * totalTextLength (FontSize artifacts)
              <= 100 * (totalTextLength (FontSize artifacts)
                        - failingTextLength (FontSize artifacts))) as Hn.
    { intros H. apply Hi, Qgeb_le in H.
      unfold percentageOfPassingText in E. congruence. }
    split; split; intros; lia.
Qed.

(** X12.  The [coverage] column of a full report is the doubles x /
    totalTextLength * 100 printed with two decimals, x the text lengths of
    the sorted rules and then of the unanalyzed and of the passing text.
    When the fragments carry the analyzed failing text, none of them has
    a negative text length, analyzedFailingTextLength <= failingTextLength
    <= totalTextLength and totalTextLength <= 2^53, these text lengths add
    up to totalTextLength and the doubles add up to 100 within 10^-13. *)
Theorem audit_coverage_sum artifacts (p : Product) :
  fullAnalysis request artifacts ->
  audit request artifacts = Ok p ->
  let a := FontSize artifacts in
  0 < totalTextLength a <= 2 ^ 53 ->
  Forall (fun f => 0 <= textLength f) (analyzedFailingNodesData a) ->
  sumTextLength (analyzedFailingNodesData a) = analyzedFailingTextLength a ->
  analyzedFailingTextLength a <= failingTextLength a ->
  failingTextLength a <= totalTextLength a ->
  let percentages :=
    map (fun x =>
           JS.multiply (JS.divide (inject_Z x) (inject_Z (totalTextLength a)))
             100)
      (coverageLengths a) in
  exists t,
    details p = Some t /\
    map coverage (items t)
    = map (fun q => JS.toFixed2 q +:+ "%") percentages /\
    sumZ (coverageLengths a) = totalTextLength a /\
    (Qabs (sumQ percentages - 100) <= 1 # 10 ^ 13)%Q.
Proof.
  intros Hf Hp a Ht Hpos Hsum Haf Hft percentages.
  rewrite (audit_fullAnalysis request artifacts Hf) in Hp.
  cbv zeta in Hp. fold a in Hp.
  destruct (mapM _ _) as [rows|e] eqn:Em; [|done].
  simpl in Hp. injection Hp as <-. apply mapM_Ok in Em.
  assert (sumZ (coverageLengths a) = totalTextLength a) as Hz.
  { unfold coverageLengths.
    rewrite !sumZ_app, sumZ_textLength, sumTextLength_sortedRules, Hsum.
    rewrite (passing_positive_iff a) by lia.
    destruct (analyzedFailingTextLength a <? failingTextLength a) eqn:E1;
      destruct (failingTextLength a <? totalTextLength a) eqn:E2;
      [apply Z.ltb_lt in E1, E2 | apply Z.ltb_lt in E1; apply Z.ltb_ge in E2
      | apply Z.ltb_ge in E1; apply Z.ltb_lt in E2
      | apply Z.ltb_ge in E1, E2]; simpl; lia. }
  eexists. split; [reflexivity|]. split; [|split; [exact Hz|]].
  - unfold reportOf, percentages, coverageLengths. cbn [items].
    apply coverage_of_rows in Em.
    destruct (_ <? _), (Qgtb _ _); cbv beta iota;
      rewrite ?map_app, ?app_nil_r, Em, <- ?app_assoc; reflexivity.
  - assert (Forall (fun x => 0 <= x) (coverageLengths a)) as Hl.
    { unfold coverageLengths. rewrite (passing_positive_iff a) by lia.
      apply Forall_app. split; [by apply sortedRules_nonneg|].
      apply Forall_app.
      destruct (analyzedFailingTextLength a <? failingTextLength a),
        (failingTextLength a <? totalTextLength a);
        split; repeat constructor; lia. }
    pose proof (sum_percentage_error (totalTextLength a) _ Ht Hl) as He.
    rewrite Hz in He. fold percentages in He.
    assert (inject_Z (totalTextLength a) / inject_Z (totalTextLength a)
            == 1)%Q as H1.
    { unfold a in *. field. intros H. unfold Qeq, inject_Z in H. simpl in H.
      lia. }
    rewrite H1, !Qmult_1_l in He.
    eapply Qle_trans; [exact He|]. apply Qle_bool_imp_le. reflexivity.
Qed.
End AuditFurther.

Lemma audit_classifier_rejection_witness :
  audit (fun _ : unit => Throw Rejected) Examples.scenarioD = Throw Rejected /\
  audit (fun _ : unit => Throw Rejected)
    (Examples.artifactsOf [Examples.small] 300 300 1000 false)
  = audit Examples.request
      (Examples.artifactsOf [Examples.small] 300 300 1000 false).
Proof.
  split.
  - by apply (audit_classifier_rejection (fun _ : unit => Throw Rejected)
                Examples.scenarioD).
  - by apply (audit_classifier_rejection (fun _ : unit => Throw Rejected)
                (Examples.artifactsOf [Examples.small] 300 300 1000 false)).
Defined.

Lemma audit_returns_iff_witness :
  exists p,
    audit Examples.request
      (Examples.artifactsOf
         [Examples.fragment Examples.para None 10 40;
          Examples.fragment Examples.para None 9 60] 100 100 1000 true)
    = Ok p.
Proof.
  apply (audit_returns_iff Examples.request).
  - apply fullAnalysis_sample. discriminate.
  - repeat constructor.
Defined.

Lemma audit_row_count_witness :
  exists p t,
    audit Examples.request Examples.scenarioE = Ok p /\
    details p = Some t /\ length (items t) = 3%nat.
Proof.
  assert (fullAnalysis Examples.request Examples.scenarioE) as Hf
    by (apply fullAnalysis_sample; discriminate).
  eexists.
  destruct (audit_row_count Examples.request Examples.scenarioE _ Hf
              eq_refl eq_refl) as (t & Hd & Hl).
  exists t. split; [reflexivity|]. split; [exact Hd | exact Hl].
Defined.

Lemma audit_score_from_totals_witness :
  exists p, audit Examples.request Examples.scenarioD = Ok p /\ score p = 1.
Proof.
  eexists. split; [reflexivity|].
  apply (audit_score_from_totals Examples.request Examples.scenarioD).
  - apply fullAnalysis_sample. discriminate.
  - reflexivity.
  - reflexivity.
  - discriminate.
Defined.

Lemma audit_coverage_sum_witness :
  let a := FontSize Examples.scenarioG in
  let percentages :=
    map (fun x =>
           JS.multiply (JS.divide (inject_Z x) (inject_Z (totalTextLength a)))
             100)
      (coverageLengths a) in
  coverageLengths a = [40; 23; 23; 14; 60] /\
  map (fun q => JS.toFixed2 q +:+ "%") percentages
  = ["25.00%"; "14.37%"; "14.37%"; "8.75%"; "37.50%"] /\
  (Qabs (sumQ percentages - 100) <= 1 # 10 ^ 13)%Q.
Proof.
  assert (fullAnalysis Examples.request Examples.scenarioG) as Hf
    by (apply fullAnalysis_sample; discriminate).
  split; [reflexivity|]. split; [reflexivity|].
  destruct (audit_coverage_sum Examples.request Examples.scenarioG _ Hf
              eq_refl)
    as (t & _ & _ & _ & H);
    [split; [reflexivity | discriminate] | repeat constructor; discriminate
    | reflexivity | discriminate | discriminate |].
  exact H.
Defined.

(** X16.  For a text length 0 <= x and 0 < totalTextLength <= 2^53, the
    double x / totalTextLength * 100 of the audit differs from the exact
    quotient by at most 300 * 2^-53 of it, and it is positive exactly when
    x is. *)
Theorem percentage_accuracy (x total : Z) :
  0 <= x -> 0 < total <= 2 ^ 53 ->
  (Qabs (percentage x total - inject_Z x / inject_Z total * 100)
   <= inject_Z x / inject_Z total * (300 # 2 ^ 53))%Q /\
  ((0 < percentage x total)%Q <-> 0 < x).
Proof.
  intros Hx Ht. split; [by apply percentage_error | by apply percentage_pos].
Qed.

Lemma percentage_accuracy_witness :
  percentage 23 160 = (8092405580431359 # 562949953421312)%Q /\
  (Qabs (percentage 23 160 - inject_Z 23 / inject_Z 160 * 100)
   <= inject_Z 23 / inject_Z 160 * (300 # 2 ^ 53))%Q /\
  ((0 < percentage 23 160)%Q <-> 0 < 23).
Proof.
  split; [reflexivity|].
  apply (percentage_accuracy 23 160); [discriminate|].
  split; [reflexivity | discriminate].
Defined.

(** X17.  When failingTextLength <= totalTextLength and 0 < totalTextLength
    <= 2^53, the test percentageOfPassingText > 0 has on the double the
    code computes the outcome it has on the exact quotient. *)
Theorem passing_test_on_doubles {D : Type} (a : FontSizeArtifact D) :
  0 < totalTextLength a <= 2 ^ 53 ->
  failingTextLength a <= totalTextLength a ->
  Qgtb (percentage (totalTextLength a - failingTextLength a)
          (totalTextLength a)) 0
  = Qgtb (percentageOfPassingText a) 0.
Proof.
  intros Ht Hf. rewrite (passing_positive_iff a) by lia.
  apply eq_true_iff_eq. rewrite Qgtb_lt, Z.ltb_lt.
  rewrite percentage_pos by lia. lia.
Qed.

Lemma passing_test_on_doubles_witness :
  Qgtb (percentage 60 160) 0 = true /\
  Qgtb (percentage (totalTextLength (FontSize Examples.scenarioG)
                    - failingTextLength (FontSize Examples.scenarioG))
          (totalTextLength (FontSize Examples.scenarioG))) 0
  = Qgtb (percentageOfPassingText (FontSize Examples.scenarioG)) 0.
Proof.
  split; [reflexivity|].
  apply (passing_test_on_doubles (FontSize Examples.scenarioG)).
  - split; [reflexivity | discriminate].
  - discriminate.
Defined.

(** ** Further properties: the aggregator *)

Lemma fragment_eta (f : FailingNodeData) :
  {| node := node f; cssRule := cssRule f; fontSize := fontSize f;
     textLength := textLength f |} = f.
Proof. by destruct f. Qed.

Lemma fold_collect_distinct (l : list FailingNodeData)
  (m : JS.Map FailingNodeData) :
  List.NoDup (map artifactIdOf l) ->
  (forall f, In f l -> JS.get (artifactIdOf f) m = None) ->
  fold_left collectFailingRule l m
  = m ++ map (fun f => (artifactIdOf f, f)) l.
Proof.
  revert m. induction l as [|f l IH]; intros m Hnd Hm; simpl.
  - by rewrite app_nil_r.
  - apply List.NoDup_cons_iff in Hnd as [Hf Hnd].
    unfold collectFailingRule at 2. fold (artifactIdOf f).
    rewrite (Hm f) by (by left). rewrite fragment_eta.
    rewrite set_absent by (apply Hm; by left).
    rewrite IH; [by rewrite <- app_assoc | done |].
    intros g Hg. apply get_None_keys. unfold JS.keys.
    rewrite map_app. simpl. intros Hin. apply in_app_or in Hin as [Hin|Hin].
    + revert Hin. apply get_None_keys, Hm. by right.
    + destruct Hin as [Hin|[]]. apply Hf. rewrite Hin. by apply in_map.
Qed.

Lemma getUniqueFailingRules_distinct (l : list FailingNodeData) :
  List.NoDup (map artifactIdOf l) -> getUniqueFailingRules l = l.
Proof.
  intros Hnd. unfold getUniqueFailingRules.
  rewrite fold_collect_distinct by done. simpl. unfold JS.values.
  rewrite map_map. simpl. apply map_id.
Qed.

(** X13.  Aggregating twice is aggregating once: the rows have distinct ids, and
    a sequence of fragments with distinct ids is returned as it is. *)
Theorem getUniqueFailingRules_idempotent (l : list FailingNodeData) :
  getUniqueFailingRules (getUniqueFailingRules l) = getUniqueFailingRules l /\
  (List.NoDup (map artifactIdOf l) -> getUniqueFailingRules l = l).
Proof.
  split; [|apply getUniqueFailingRules_distinct].
  apply getUniqueFailingRules_distinct.
  rewrite ids_getUniqueFailingRules. apply NoDup_firstSeen.
Qed.

Lemma getUniqueFailingRules_idempotent_witness :
  getUniqueFailingRules [Examples.small; Examples.inlineOfPara]
  = [Examples.small; Examples.inlineOfPara].
Proof.
  apply (getUniqueFailingRules_idempotent
           [Examples.small; Examples.inlineOfPara]).
  repeat constructor; simpl; intros H;
    repeat (destruct H as [H|H]; try discriminate H); exact H.
Defined.

Lemma filter_length_full {A : Type} (p : A -> bool) (l : list A) :
  length (List.filter p l) = length l -> List.filter p l = l.
Proof.
  induction l as [|x l IH]; simpl; [done|].
  pose proof (List.filter_length_le p l) as Hle.
  destruct (p x); simpl; intros H; [f_equal; apply IH; lia | lia].
Qed.

Lemma firstSeen_length (ids : list string) :
  (length (firstSeen ids) <= length ids)%nat /\
  (length (firstSeen ids) = length ids -> List.NoDup ids).
Proof.
  induction ids as [|k ids [IH1 IH2]]; simpl; [split; [lia | constructor]|].
  pose proof (List.filter_length_le (fun k' => negb (String.eqb k' k))
                (firstSeen ids)) as Hle.
  split; [lia|]. intros H.
  assert (length (firstSeen ids) = length ids) as Hl by lia.
  constructor; [|by apply IH2].
  assert (List.filter (fun k' => negb (String.eqb k' k)) (firstSeen ids)
          = firstSeen ids) as Hf by (apply filter_length_full; lia).
  intros Hin. apply In_firstSeen in Hin. rewrite <- Hf in Hin.
  apply filter_In in Hin as [_ Hk]. by rewrite String.eqb_refl in Hk.
Qed.

(** X14.  The aggregator returns no more rows than it is given fragments, as
    many exactly when the fragments have distinct ids, and at least one
    for a sequence that is not empty. *)
Theorem getUniqueFailingRules_length (l : list FailingNodeData) :
  (length (getUniqueFailingRules l) <= length l)%nat /\
  (length (getUniqueFailingRules l) = length l
   <-> List.NoDup (map artifactIdOf l)) /\
  (l <> [] -> getUniqueFailingRules l <> []).
Proof.
  pose proof (firstSeen_length (map artifactIdOf l)) as [H1 H2].
  rewrite <- ids_getUniqueFailingRules in H1, H2.
  rewrite !length_map in H1, H2.
  split; [done|]. split; [split; [done|]|].
  - intros Hnd. by rewrite getUniqueFailingRules_distinct.
  - destruct l as [|f l]; [done|]. intros _ Hn.
    pose proof (ids_getUniqueFailingRules (f :: l)) as Hi.
    rewrite Hn in Hi. simpl in Hi. done.
Qed.

Lemma getUniqueFailingRules_length_witness :
  length (getUniqueFailingRules [Examples.small; Examples.inlineOfPara])
  = 2%nat /\
  getUniqueFailingRules [Examples.small; Examples.smaller] <> [].
Proof.
  split.
  - apply (getUniqueFailingRules_length
             [Examples.small; Examples.inlineOfPara]).
    repeat constructor; simpl; intros H;
      repeat (destruct H as [H|H]; try discriminate H); exact H.
  - by apply (getUniqueFailingRules_length
                [Examples.small; Examples.smaller]).
Defined.

(** ** Further properties: the aggregator over the store *)

Module StoreFurther.
Import StoreFacts StoreRefinement.

(** X15.  What [getUniqueFailingRules] returns shares no object with what it
    was given: the array it returns and every record that array refers to
    were created by the call, and the objects of the caller are as they
    were.  When the argument is an array of fragment records, the call
    returns, and the records of the new array are the rows computed on
    values. *)
Theorem getUniqueFailingRules_fresh (arr : nat) (s : list Store.cell) :
  (forall r s',
     Store.getUniqueFailingRules arr s = (Ok r, s') ->
     extends s s' /\ (length s <= r)%nat /\
     exists rows,
       s' !! r = Some (Store.Array rows) /\
       Forall (fun l => (length s <= l)%nat) rows) /\
  (forall a data,
     s !! arr = Some (Store.Array a) -> holds s a data ->
     exists r s' rows,
       Store.getUniqueFailingRules arr s = (Ok r, s') /\
       s' !! r = Some (Store.Array rows) /\
       holds s' rows (getUniqueFailingRules data)).
Proof.
  split.
  - intros r s'. unfold Store.getUniqueFailingRules, Store.bindM,
      Store.readArray, Store.alloc.
    destruct (s !! arr) as [[f|a]|]; try done.
    assert (frameInv s s []) as Hinv.
    { split; [lia|]. split; [apply extends_refl | constructor]. }
    destruct (forEach_collect_frame s a [] s Hinv) as [_ Hok].
    destruct (Store.forEach Store.collectFailingRule a [] s)
      as [[m|e] s1]; [|done].
    destruct (Hok m eq_refl) as (Hlen & He & Hm). simpl in *.
    intros [= <- <-]. split; [|split; [done|]].
    + intros l Hl. rewrite lookup_app_l by lia. by apply He.
    + exists (JS.values m). split; [|done].
      by rewrite lookup_app_r, Nat.sub_diag.
  - intros a data Ha Hd.
    destruct (getUniqueFailingRules_sim s arr a data Ha Hd)
      as (s1 & ls & E & _ & Hls & Hb).
    exists (length s1), (s1 ++ [Store.Array ls]), ls.
    split; [done|]. split; [by rewrite lookup_app_r, Nat.sub_diag|].
    eapply holds_other; [|exact Hls]. intros l Hl.
    apply lookup_app_l. rewrite List.Forall_forall in Hb. by apply Hb.
Qed.

End StoreFurther.

Lemma getUniqueFailingRules_fresh_witness :
  exists r s' rows,
    Store.getUniqueFailingRules 2 Examples.store = (Ok r, s') /\
    s' !! r = Some (Store.Array rows) /\
    holds s' rows (getUniqueFailingRules [Examples.small; Examples.smaller]).
Proof.
  apply (proj2 (StoreFurther.getUniqueFailingRules_fresh 2 Examples.store)
           [0%nat; 1%nat]).
  - reflexivity.
  - repeat constructor.
Defined.
